(** * xjson: the JSON syntax highlighter [highlightJSON]

    A shallow embedding of [highlightJSON] (internal/ui, the function that
    colours the JSON text shown in the viewport) and the properties of it
    that the specification states.

    The Go function walks the input string byte by byte with an index [i],
    two flags ([inString], [afterColon]) and a [strings.Builder].  Here the
    input is a list of bytes, every index and slice access is fallible
    (an access out of range is a Go run-time panic), and the builder is the
    list of what was written to it, in order. *)

From Stdlib Require Import Ascii String.
From Stdlib Require Import List Arith Bool Lia ZArith DecimalString.
Import ListNotations.

Local Open Scope list_scope.

(** ** Results of fallible code *)

(** [Panic] is a Go run-time panic (index or slice out of range);
    [OutOfFuel] is only an artefact of the loops being written with a
    bound on their iterations. *)
Inductive res (A : Type) : Type :=
| Ok (a : A)
| Panic
| OutOfFuel.

Arguments Ok {A} a.
Arguments Panic {A}.
Arguments OutOfFuel {A}.

Definition bind {A B : Type} (m : res A) (k : A -> res B) : res B :=
  match m with
  | Ok a => k a
  | Panic => Panic
  | OutOfFuel => OutOfFuel
  end.

Notation "x <- m ;; k" := (bind m (fun x => k))
  (at level 61, m at next level, right associativity).
Notation "' pat <- m ;; k" := (bind m (fun x => match x with pat => k end))
  (at level 61, pat pattern, m at next level, right associativity).

(** ** Bytes and strings *)

Definition bytes := list ascii.

Definition dquote : ascii := "034"%char.
Definition backslash : ascii := "092"%char.
Definition newline : ascii := "010"%char.
Definition tab : ascii := "009"%char.
Definition esc : ascii := "027"%char.

(** [s[i]]: panics out of range. *)
Definition index (s : bytes) (i : nat) : res ascii :=
  match nth_error s i with
  | Some c => Ok c
  | None => Panic
  end.

(** [s[lo:hi]]: panics unless [lo <= hi <= len(s)]. *)
Definition slice (s : bytes) (lo hi : nat) : res bytes :=
  if (lo <=? hi) && (hi <=? length s)
  then Ok (firstn (hi - lo) (skipn lo s))
  else Panic.

Fixpoint bytes_eqb (a b : bytes) : bool :=
  match a, b with
  | [], [] => true
  | x :: a', y :: b' => Ascii.eqb x y && bytes_eqb a' b'
  | _, _ => false
  end.

(** [c >= '0' && c <= '9'] *)
Definition is_digit (c : ascii) : bool :=
  (nat_of_ascii "0"%char <=? nat_of_ascii c) && (nat_of_ascii c <=? nat_of_ascii "9"%char).

(** The test of the number case:
    [(c >= '0' && c <= '9') || c == '-' || c == '.'] *)
Definition starts_number (c : ascii) : bool :=
  is_digit c || Ascii.eqb c "-"%char || Ascii.eqb c "."%char.

(** The test of the loop that reads on through a number, on [s[i+1]]. *)
Definition continues_number (c : ascii) : bool :=
  is_digit c || Ascii.eqb c "."%char || Ascii.eqb c "e"%char || Ascii.eqb c "E"%char
  || Ascii.eqb c "+"%char || Ascii.eqb c "-"%char.

(** ** Style directives

    The escape sequences the function writes, as they are in the source. *)

Definition sgr (body : string) : bytes :=
  esc :: list_ascii_of_string body.

Definition sgr_reset   : bytes := sgr "[0m".
Definition sgr_key     : bytes := sgr "[38;5;203m".
Definition sgr_string  : bytes := sgr "[38;5;114m".
Definition sgr_colon   : bytes := sgr "[38;5;245m".
Definition sgr_number  : bytes := sgr "[38;5;215m".
Definition sgr_true    : bytes := sgr "[38;5;79m".
Definition sgr_false   : bytes := sgr "[38;5;204m".
Definition sgr_null    : bytes := sgr "[38;5;139m".
Definition sgr_brace   : bytes := sgr "[38;5;222m" ++ sgr "[1m".
Definition sgr_bracket : bytes := sgr "[38;5;147m" ++ sgr "[1m".

(** ** The builder

    What was written to the [strings.Builder], in order.  A write of input
    text is kept apart from a write of a style directive, so that the
    directives the function inserted can be told from the text it copied;
    [flatten] forgets the difference and gives the string the builder
    holds. *)

Inductive chunk : Type :=
| Text (c : ascii)
| Style (d : bytes).

Definition builder := list chunk.

Definition WriteByte (c : ascii) (b : builder) : builder := b ++ [Text c].
Definition WriteString (w : bytes) (b : builder) : builder := b ++ map Text w.
Definition WriteStyle (d : bytes) (b : builder) : builder := b ++ [Style d].

Definition chunk_bytes (k : chunk) : bytes :=
  match k with
  | Text c => [c]
  | Style d => d
  end.

(** [result.String()] *)
Definition flatten (b : builder) : bytes := flat_map chunk_bytes b.

(** The output with the inserted directives taken out again. *)
Definition strip_styles (b : builder) : bytes :=
  flat_map (fun k => match k with Text c => [c] | Style _ => [] end) b.

(** ** The scanner state *)

Record state : Type := mkState {
  result : builder;
  inString : bool;
  afterColon : bool
}.

Definition init : state := mkState [] false false.

Definition write (f : builder -> builder) (st : state) : state :=
  mkState (f (result st)) (inString st) (afterColon st).

Definition set_inString (v : bool) (st : state) : state :=
  mkState (result st) v (afterColon st).

Definition set_afterColon (v : bool) (st : state) : state :=
  mkState (result st) (inString st) v.

(** ** The inner loops *)

(** The inner loop of the key test,
    [for k := j + 1; k < len(s); k++], which looks for a colon after the
    quote at [j], over spaces, newlines and tabs:
    the value [isKey] has when the loop is left. *)
Fixpoint colon_scan (fuel : nat) (s : bytes) (k : nat) : res bool :=
  if k <? length s then
    match fuel with
    | O => OutOfFuel
    | S fuel' =>
        c <- index s k ;;
        if Ascii.eqb c ":"%char then Ok true
        else if negb (Ascii.eqb c " "%char) && negb (Ascii.eqb c newline)
                && negb (Ascii.eqb c tab)
        then Ok false
        else colon_scan fuel' s (k + 1)
    end
  else Ok false.

(** The outer loop of the key test, [for j := i + 1; j < len(s); j++]:
    it stops at the first quote byte it meets. *)
Fixpoint quote_scan (fuel : nat) (s : bytes) (j : nat) : res bool :=
  if j <? length s then
    match fuel with
    | O => OutOfFuel
    | S fuel' =>
        c <- index s j ;;
        if Ascii.eqb c dquote then colon_scan (length s) s (j + 1)
        else quote_scan fuel' s (j + 1)
    end
  else Ok false.

(** [isKey] for the string that opens at [i]. *)
Definition isKey (s : bytes) (i : nat) : res bool :=
  quote_scan (length s) s (i + 1).

(** The loop that reads on through a number:
    [for i+1 < len(s) && (...s[i+1]...) { i++; result.WriteByte(s[i]) }]. *)
Fixpoint number_loop (fuel : nat) (s : bytes) (i : nat) (b : builder)
  : res (nat * builder) :=
  if i + 1 <? length s then
    n <- index s (i + 1) ;;
    if continues_number n then
      match fuel with
      | O => OutOfFuel
      | S fuel' =>
          c <- index s (i + 1) ;;
          number_loop fuel' s (i + 1) (WriteByte c b)
      end
    else Ok (i, b)
  else Ok (i, b).

(** The test of a literal case,
    [c == 't' && !inString && i+3 < len(s) && s[i:i+4] == "true"],
    with the first byte, the two offsets and the word as they are in each
    of the three cases. *)
Definition literal_here (s : bytes) (i : nat) (c : ascii) (st : state)
  (first : ascii) (last len : nat) (word : string) : res bool :=
  if Ascii.eqb c first && negb (inString st) && (i + last <? length s) then
    w <- slice s i (i + len) ;;
    Ok (bytes_eqb w (list_ascii_of_string word))
  else Ok false.

(** What a literal case does: the style, the word, the reset, [i += last]
    and [afterColon = false]. *)
Definition emit_literal (i : nat) (st : state) (style : bytes)
  (last : nat) (word : string) : nat * state :=
  (i + last,
   set_afterColon false
     (write (WriteStyle sgr_reset)
        (write (WriteString (list_ascii_of_string word))
           (write (WriteStyle style) st)))).

(** One character with its style and the reset after it. *)
Definition emit_styled (c : ascii) (style : bytes) (st : state) : state :=
  write (WriteStyle sgr_reset) (write (WriteByte c) (write (WriteStyle style) st)).

(** ** The loop body

    One iteration of [for i := 0; i < len(s); i++] at index [i]: the
    [switch] with its cases in the order of the source.  The result is the
    value of [i] when the body is left (the loop then adds one) and the new
    state. *)
Definition body (s : bytes) (i : nat) (st : state) : res (nat * state) :=
  c <- index s i ;;
  if Ascii.eqb c dquote then
    escaped <- (if 0 <? i
                then p <- index s (i - 1) ;; Ok (Ascii.eqb p backslash)
                else Ok false) ;;
    if escaped then Ok (i, write (WriteByte c) st)
    else if inString st then
      Ok (i, set_afterColon false
               (set_inString false
                  (write (WriteStyle sgr_reset) (write (WriteByte c) st))))
    else
      key <- isKey s i ;;
      Ok (i, write (WriteByte c)
               (write (WriteStyle (if key then sgr_key else sgr_string))
                  (set_inString true st)))
  else if Ascii.eqb c ":"%char && negb (inString st) then
    Ok (i, set_afterColon true (emit_styled c sgr_colon st))
  else if starts_number c then
    if negb (inString st) && afterColon st then
      '(i', b) <- number_loop (length s) s i
                    (WriteByte c (WriteStyle sgr_number (result st))) ;;
      Ok (i', set_afterColon false
                (write (WriteStyle sgr_reset)
                   (mkState b (inString st) (afterColon st))))
    else Ok (i, write (WriteByte c) st)
  else
    is_true <- literal_here s i c st "t"%char 3 4 "true" ;;
    if is_true then Ok (emit_literal i st sgr_true 3 "true")
    else
      is_false <- literal_here s i c st "f"%char 4 5 "false" ;;
      if is_false then Ok (emit_literal i st sgr_false 4 "false")
      else
        is_null <- literal_here s i c st "n"%char 3 4 "null" ;;
        if is_null then Ok (emit_literal i st sgr_null 3 "null")
        else if Ascii.eqb c "{"%char || Ascii.eqb c "}"%char then
          let st' := emit_styled c sgr_brace st in
          Ok (i, if Ascii.eqb c "{"%char then set_afterColon false st' else st')
        else if Ascii.eqb c "["%char || Ascii.eqb c "]"%char then
          let st' := emit_styled c sgr_bracket st in
          Ok (i, if Ascii.eqb c "["%char then set_afterColon false st' else st')
        else if Ascii.eqb c ","%char && negb (inString st) then
          Ok (i, set_afterColon false (write (WriteByte c) st))
        else Ok (i, write (WriteByte c) st).

(** ** The main loop and the function *)

(** [for i := 0; i < len(s); i++ { body }] from index [i] on. *)
Fixpoint loop (fuel : nat) (s : bytes) (i : nat) (st : state) : res state :=
  if i <? length s then
    match fuel with
    | O => OutOfFuel
    | S fuel' =>
        '(i', st') <- body s i st ;;
        loop fuel' s (i' + 1) st'
    end
  else Ok st.

(** The state in which the loop of [highlightJSON] ends. *)
Definition scan (s : bytes) : res state := loop (length s) s 0 init.

(** What the builder holds when the loop ends. *)
Definition highlight_chunks (s : bytes) : res builder :=
  st <- scan s ;; Ok (result st).

(** [highlightJSON(s)]: [return result.String()]. *)
Definition highlightJSON (s : bytes) : res bytes :=
  b <- highlight_chunks s ;; Ok (flatten b).

(** ** Reading the output as spans

    The function keeps no spans: a span is what one style directive colours.
    [spans] reads them off the builder: a directive other than the reset
    opens a span of its category, the reset or another directive closes it,
    and text outside any directive is plain. *)

Inductive category : Type :=
| Key | StringValue | Colon | Number | True_ | False_ | Null
| Brace | Bracket | Plain | Unknown.

Definition category_of (d : bytes) : category :=
  if bytes_eqb d sgr_key then Key
  else if bytes_eqb d sgr_string then StringValue
  else if bytes_eqb d sgr_colon then Colon
  else if bytes_eqb d sgr_number then Number
  else if bytes_eqb d sgr_true then True_
  else if bytes_eqb d sgr_false then False_
  else if bytes_eqb d sgr_null then Null
  else if bytes_eqb d sgr_brace then Brace
  else if bytes_eqb d sgr_bracket then Bracket
  else if bytes_eqb d sgr_reset then Plain
  else Unknown.

Definition span : Type := category * bytes.

Definition close_span (cur : category) (acc : bytes) (rest : list span)
  : list span :=
  match acc with
  | [] => rest
  | _ => (cur, acc) :: rest
  end.

(** [cur] is the category in force and [acc] the text gathered under it. *)
Fixpoint spans_from (cur : category) (acc : bytes) (b : builder) : list span :=
  match b with
  | [] => close_span cur acc []
  | Text c :: b' => spans_from cur (acc ++ [c]) b'
  | Style d :: b' => close_span cur acc (spans_from (category_of d) [] b')
  end.

Definition spans (b : builder) : list span := spans_from Plain [] b.

(** The category in force at the end of the output: [Plain] when the last
    directive written was the reset (or none was written). *)
Fixpoint style_at_end (cur : category) (b : builder) : category :=
  match b with
  | [] => cur
  | Text _ :: b' => style_at_end cur b'
  | Style d :: b' => style_at_end (category_of d) b'
  end.

(** ** Taking escape sequences out of a string

    What a terminal does not show: from an escape byte up to the [m] that
    ends the sequence. *)
Fixpoint strip_ansi_from (in_sequence : bool) (o : bytes) : bytes :=
  match o with
  | [] => []
  | c :: o' =>
      if in_sequence then strip_ansi_from (negb (Ascii.eqb c "m"%char)) o'
      else if Ascii.eqb c esc then strip_ansi_from true o'
      else c :: strip_ansi_from false o'
  end.

Definition strip_ansi (o : bytes) : bytes := strip_ansi_from false o.

(** ** Writing inputs

    An input is written as a Rocq string in which ['] stands for the
    double quote (byte 34). *)
Definition json (text : string) : bytes :=
  map (fun c => if Ascii.eqb c "'"%char then dquote else c)
      (list_ascii_of_string text).

(** ** What the properties are stated with *)

(** The directives the function writes. *)
Definition styles : list bytes :=
  [sgr_reset; sgr_key; sgr_string; sgr_colon; sgr_number; sgr_true;
   sgr_false; sgr_null; sgr_brace; sgr_bracket].

(** A write is of input text, or of one of those directives. *)
Definition known_chunk (k : chunk) : Prop :=
  match k with
  | Text _ => True
  | Style d => In d styles
  end.

(** Every directive in the builder is one of [styles]. *)
Definition styles_known (b : builder) : Prop := Forall known_chunk b.

(** The invariant of the main loop at index [i]: the text written so far
    is the input up to [i], and the directives written are the function's
    own. *)
Definition copied_upto (s : bytes) (i : nat) (st : state) : Prop :=
  strip_styles (result st) = firstn i s /\ styles_known (result st).

(** The input has no escape byte of its own. *)
Definition no_escape (s : bytes) : Prop :=
  Forall (fun c => Ascii.eqb c esc = false) s.

(** The byte before [i], as the quote case reads it:
    [i > 0 && s[i-1] == '\\']. *)
Definition after_backslash (s : bytes) (i : nat) : bool :=
  (0 <? i) &&
  match nth_error s (i - 1) with
  | Some p => Ascii.eqb p backslash
  | None => false
  end.

(** The input has [word] at [i], byte for byte. *)
Definition has_word (s : bytes) (i : nat) (word : string) : bool :=
  bytes_eqb (firstn (String.length word) (skipn i s)) (list_ascii_of_string word).

(** The three words with their first bytes. *)
Definition literals : list (ascii * string) :=
  [("t"%char, "true"%string); ("f"%char, "false"%string); ("n"%char, "null"%string)].

(** The style of each word. *)
Definition literal_style (c : ascii) : bytes :=
  if Ascii.eqb c "t"%char then sgr_true
  else if Ascii.eqb c "f"%char then sgr_false
  else sgr_null.

(** What the builder holds for an input, with its spans and the category
    in force at the end: the shape in which the worked inputs below are
    stated. *)
Definition rendering (s : bytes) (b : builder) (sp : list span)
  (last : category) : Prop :=
  highlight_chunks s = Ok b /\ spans b = sp /\ style_at_end Plain b = last.

(** ** Runs of bytes and the lookahead read off the rest of the input *)

(** The longest prefix of [l] whose bytes satisfy [p]. *)
Fixpoint take_while (p : ascii -> bool) (l : bytes) : bytes :=
  match l with
  | [] => []
  | c :: l' => if p c then c :: take_while p l' else []
  end.

(** The bytes the inner loop of the key test steps over: the negation of
    [s[k] != ' ' && s[k] != '\n' && s[k] != '\t']. *)
Definition is_blank (c : ascii) : bool :=
  Ascii.eqb c " "%char || Ascii.eqb c newline || Ascii.eqb c tab.

(** A colon comes next in [l], after blanks only. *)
Fixpoint colon_ahead (l : bytes) : bool :=
  match l with
  | [] => false
  | c :: l' =>
      if Ascii.eqb c ":"%char then true
      else if is_blank c then colon_ahead l'
      else false
  end.

(** After the first quote byte of [l], a colon comes next. *)
Fixpoint key_ahead (l : bytes) : bool :=
  match l with
  | [] => false
  | c :: l' => if Ascii.eqb c dquote then colon_ahead l' else key_ahead l'
  end.

(** The bytes that have a case of their own in the switch whatever the
    flags are: the quote, and the braces and brackets. *)
Definition ends_plain_run (c : ascii) : bool :=
  Ascii.eqb c dquote || Ascii.eqb c "{"%char || Ascii.eqb c "}"%char
  || Ascii.eqb c "["%char || Ascii.eqb c "]"%char.

(** No byte of [s] is a quote, a colon, a brace or a bracket, and none of
    the three words stands anywhere in [s]. *)
Definition plain_text (s : bytes) : bool :=
  forallb (fun c => negb (ends_plain_run c) && negb (Ascii.eqb c ":"%char)) s
  && forallb (fun i => negb (has_word s i "true") && negb (has_word s i "false")
                       && negb (has_word s i "null"))
             (seq 0 (length s)).

(** ** What one iteration can do

    The branches of the switch, as a relation between the state before an
    iteration at [i] and the index and state it is left with. *)

(** The state after a string is closed by the quote [c]. *)
Definition closed (c : ascii) (st : state) : state :=
  set_afterColon false
    (set_inString false (write (WriteStyle sgr_reset) (write (WriteByte c) st))).

(** The state after a string is opened by the quote [c]. *)
Definition opened (key : bool) (c : ascii) (st : state) : state :=
  write (WriteByte c)
    (write (WriteStyle (if key then sgr_key else sgr_string))
       (set_inString true st)).

(** The state after a number token that starts with [c] and goes on with
    [run]. *)
Definition numbered (c : ascii) (run : bytes) (st : state) : state :=
  mkState (result st ++ Style sgr_number :: map Text (c :: run) ++ [Style sgr_reset])
          (inString st) false.

Inductive outcome (s : bytes) (i : nat) (st : state) : nat -> state -> Prop :=
| out_copy (c : ascii) :
    nth_error s i = Some c ->
    outcome s i st i (write (WriteByte c) st)
| out_close :
    nth_error s i = Some dquote -> inString st = true ->
    outcome s i st i (closed dquote st)
| out_open (key : bool) :
    nth_error s i = Some dquote -> inString st = false ->
    isKey s i = Ok key ->
    outcome s i st i (opened key dquote st)
| out_colon :
    nth_error s i = Some ":"%char -> inString st = false ->
    outcome s i st i (set_afterColon true (emit_styled ":" sgr_colon st))
| out_number (c : ascii) :
    nth_error s i = Some c -> starts_number c = true ->
    inString st = false -> afterColon st = true ->
    outcome s i st
      (i + length (take_while continues_number (skipn (i + 1) s)))
      (numbered c (take_while continues_number (skipn (i + 1) s)) st)
| out_literal (c : ascii) (word : string) :
    In (c, word) literals -> nth_error s i = Some c ->
    inString st = false -> has_word s i word = true ->
    outcome s i st (i + (String.length word - 1))
      (snd (emit_literal i st (literal_style c) (String.length word - 1) word))
| out_open_paren (c : ascii) (style : bytes) :
    nth_error s i = Some c ->
    (c = "{"%char /\ style = sgr_brace) \/ (c = "["%char /\ style = sgr_bracket) ->
    outcome s i st i (set_afterColon false (emit_styled c style st))
| out_close_paren (c : ascii) (style : bytes) :
    nth_error s i = Some c ->
    (c = "}"%char /\ style = sgr_brace) \/ (c = "]"%char /\ style = sgr_bracket) ->
    outcome s i st i (emit_styled c style st)
| out_comma :
    nth_error s i = Some ","%char -> inString st = false ->
    outcome s i st i (set_afterColon false (write (WriteByte ",") st)).

(** The style in force after an iteration: none, unless the iteration is
    left inside a string, where it is the key or the string colour. *)
Definition style_settled (st : state) : Prop :=
  style_at_end Plain (result st) = Plain
  \/ (inString st = true
      /\ (style_at_end Plain (result st) = Key
          \/ style_at_end Plain (result st) = StringValue)).

(** * The payloads and the application state

    The functions around [highlightJSON]: the transform of API responses
    into the payloads that are shown (package transform), and the part of
    the application model that chooses which payload is rendered
    (internal/ui: [nextItem], [prevItem], [updateContent] and the cases of
    [Update] for the data messages). *)

(** ** Go values used below *)

(** [fmt.Sprintf("%d", n)]. *)
Definition itoa (n : Z) : bytes :=
  list_ascii_of_string (NilZero.string_of_int (Z.to_int n)).

(** Arithmetic on [int] wraps around at 64 bits. *)
Definition wrap64 (n : Z) : Z :=
  ((n + 2 ^ 63) mod 2 ^ 64 - 2 ^ 63)%Z.

(** A Go map with string keys, as the list of its entries; [map_set] is
    [m[k] = v] and [map_get] is [m[k]] with its presence. *)
Definition gomap (V : Type) : Type := list (bytes * V).

Fixpoint map_get {V : Type} (k : bytes) (m : gomap V) : option V :=
  match m with
  | [] => None
  | (k', v) :: m' => if bytes_eqb k k' then Some v else map_get k m'
  end.

Fixpoint map_remove {V : Type} (k : bytes) (m : gomap V) : gomap V :=
  match m with
  | [] => []
  | (k', v) :: m' =>
      if bytes_eqb k k' then map_remove k m' else (k', v) :: map_remove k m'
  end.

Definition map_set {V : Type} (k : bytes) (v : V) (m : gomap V) : gomap V :=
  (k, v) :: map_remove k m.

(** The values put into a [map[string]interface{}] here. *)
#[warnings="-register-all"]
Inductive value : Type :=
| VString (s : bytes)
| VInt (n : Z)
| VBool (b : bool)
| VObject (m : list (bytes * value)).

(** [s[i]] on a slice, with [i] an [int]. *)
Definition slice_index {A : Type} (l : list A) (i : Z) : res A :=
  if (i <? 0)%Z then Panic
  else match nth_error l (Z.to_nat i) with
       | Some x => Ok x
       | None => Panic
       end.

(** [len(l)] as an [int]. *)
Definition len {A : Type} (l : list A) : Z := Z.of_nat (length l).

(** ** The API types (internal/api, types.go) *)

Record Metrics : Type := mkMetrics {
  RetweetCount : Z;
  ReplyCount : Z;
  LikeCount : Z;
  QuoteCount : Z;
  Impressions : Z
}.

Record User : Type := mkUser {
  User_ID : bytes;
  User_Name : bytes;
  User_Username : bytes;
  User_Description : bytes;
  User_ProfileImageURL : bytes;
  User_Verified : bool;
  User_FollowersCount : Z;
  User_FollowingCount : Z;
  User_TweetCount : Z
}.

Record ResponseMeta : Type := mkResponseMeta {
  ResultCount : Z;
  NextToken : bytes;
  PreviousToken : bytes
}.

(** ** The payloads (package transform) *)

Record DisguisedPayload : Type := mkDisguisedPayload {
  DP_ID : bytes;
  DP_Type : bytes;
  DP_Endpoint : bytes;
  DP_Status : Z;
  DP_Timestamp : bytes;
  DP_Payload : gomap value
}.

Record MetaInfo : Type := mkMetaInfo {
  MI_ResultCount : Z;
  MI_NextCursor : bytes;
  MI_HasMore : bool
}.

Record DisguisedResponse : Type := mkDisguisedResponse {
  DR_Method : bytes;
  DR_Endpoint : bytes;
  DR_StatusCode : Z;
  DR_Latency : bytes;
  DR_Data : list DisguisedPayload;
  DR_Meta : option MetaInfo
}.

Section Transform.

(** [time.Time] with the one operation used on it,
    [t.Format(time.RFC3339)]. *)
Variable time : Type.
Variable Format_RFC3339 : time -> bytes.

Record Tweet : Type := mkTweet {
  Tweet_ID : bytes;
  Tweet_Text : bytes;
  Tweet_AuthorID : bytes;
  Tweet_CreatedAt : time;
  Tweet_Metrics : option Metrics
}.

(** [api.TimelineResponse], the response of tweets that [TransformTimeline]
    takes; [nil] pointers are [None]. *)
Record TweetsResponse : Type := mkTweetsResponse {
  TR_Data : list Tweet;
  TR_Includes : option (list User);
  TR_Meta : option ResponseMeta
}.

(** [api.SearchResponse], a type of its own with fields of the same names
    and types. *)
Record SearchResponse : Type := mkSearchResponse {
  SR_Data : list Tweet;
  SR_Includes : option (list User);
  SR_Meta : option ResponseMeta
}.

(** [TransformTweet]; [now] is what [time.Now()] gives in this call. *)
Definition TransformTweet (tweet : Tweet) (author : User) (now : time)
  : DisguisedPayload :=
  let payload : gomap value :=
    [ (list_ascii_of_string "content", VString (Tweet_Text tweet));
      (list_ascii_of_string "author",
       VObject
         [ (list_ascii_of_string "handle", VString (User_Username author));
           (list_ascii_of_string "display_name", VString (User_Name author));
           (list_ascii_of_string "verified", VBool (User_Verified author)) ]);
      (list_ascii_of_string "created_at",
       VString (Format_RFC3339 (Tweet_CreatedAt tweet))) ] in
  let payload :=
    match Tweet_Metrics tweet with
    | Some m =>
        map_set (list_ascii_of_string "metrics")
          (VObject
             [ (list_ascii_of_string "impressions", VInt (Impressions m));
               (list_ascii_of_string "engagements",
                VInt (wrap64 (wrap64 (LikeCount m + RetweetCount m)
                              + ReplyCount m)));
               (list_ascii_of_string "retweets", VInt (RetweetCount m));
               (list_ascii_of_string "likes", VInt (LikeCount m));
               (list_ascii_of_string "replies", VInt (ReplyCount m)) ])
          payload
    | None => payload
    end in
  mkDisguisedPayload
    (Tweet_ID tweet)
    (list_ascii_of_string "status_update")
    (list_ascii_of_string "/v2/statuses/" ++ Tweet_ID tweet)
    200
    (Format_RFC3339 now)
    payload.

(** The map from user ids to users that [TransformTimeline] builds:
    [for i := range users { userMap[users[i].ID] = &users[i] }]. *)
Definition build_userMap (includes : option (list User)) : gomap User :=
  match includes with
  | Some users =>
      fold_left (fun m u => map_set (User_ID u) u m) users []
  | None => []
  end.

(** [&api.User{Username: "unknown", Name: "Unknown User"}]. *)
Definition unknown_user : User :=
  mkUser [] (list_ascii_of_string "Unknown User")
         (list_ascii_of_string "unknown") [] [] false 0 0 0.

(** The loop of [TransformTimeline] over the tweets; [clock k] is what
    [time.Now()] gives in the call for the tweet at index [k]. *)
Fixpoint transform_tweets (userMap : gomap User) (clock : nat -> time)
  (k : nat) (tweets : list Tweet) : list DisguisedPayload :=
  match tweets with
  | [] => []
  | tweet :: rest =>
      let author :=
        match map_get (Tweet_AuthorID tweet) userMap with
        | Some u => u
        | None => unknown_user
        end in
      TransformTweet tweet author (clock k)
      :: transform_tweets userMap clock (S k) rest
  end.

Definition transform_meta (m : option ResponseMeta) : option MetaInfo :=
  match m with
  | Some meta =>
      Some (mkMetaInfo (ResultCount meta) (NextToken meta)
              (negb (bytes_eqb (NextToken meta) [])))
  | None => None
  end.

(** [TransformTimeline]. *)
Definition TransformTimeline (resp : TweetsResponse) (endpoint : bytes)
  (clock : nat -> time) : DisguisedResponse :=
  let userMap := build_userMap (TR_Includes resp) in
  let data := transform_tweets userMap clock 0 (TR_Data resp) in
  mkDisguisedResponse
    (list_ascii_of_string "GET")
    endpoint
    200
    (itoa (wrap64 (50 + wrap64 (len (TR_Data resp) * 2))))
    data
    (transform_meta (TR_Meta resp)).

(** The loop of [TransformSearch] over the tweets, written out a second
    time in the source; [clock k] is what [time.Now()] gives in the call
    for the tweet at index [k] of this run. *)
Fixpoint search_tweets (userMap : gomap User) (clock : nat -> time)
  (k : nat) (tweets : list Tweet) : list DisguisedPayload :=
  match tweets with
  | [] => []
  | tweet :: rest =>
      let author :=
        match map_get (Tweet_AuthorID tweet) userMap with
        | Some u => u
        | None => unknown_user
        end in
      TransformTweet tweet author (clock k)
      :: search_tweets userMap clock (S k) rest
  end.

(** [TransformSearch]: its own user map, its own loop and its own readings
    of the clock. *)
Definition TransformSearch (resp : SearchResponse) (query : bytes)
  (clock : nat -> time) : DisguisedResponse :=
  let userMap : gomap User :=
    match SR_Includes resp with
    | Some users =>
        fold_left (fun m u => map_set (User_ID u) u m) users []
    | None => []
    end in
  let data := search_tweets userMap clock 0 (SR_Data resp) in
  mkDisguisedResponse
    (list_ascii_of_string "GET")
    (list_ascii_of_string "/v2/search?q=" ++ query)
    200
    (itoa (wrap64 (80 + wrap64 (len (SR_Data resp) * 3))))
    data
    (match SR_Meta resp with
     | Some meta =>
         Some (mkMetaInfo (ResultCount meta) (NextToken meta)
                 (negb (bytes_eqb (NextToken meta) [])))
     | None => None
     end).

End Transform.

(** [TransformUser]. *)
Definition TransformUser {time : Type} (Format_RFC3339 : time -> bytes)
  (user : User) (now : time) : DisguisedPayload :=
  mkDisguisedPayload
    (User_ID user)
    (list_ascii_of_string "user_profile")
    (list_ascii_of_string "/v2/users/" ++ User_ID user)
    200
    (Format_RFC3339 now)
    [ (list_ascii_of_string "handle", VString (User_Username user));
      (list_ascii_of_string "display_name", VString (User_Name user));
      (list_ascii_of_string "bio", VString (User_Description user));
      (list_ascii_of_string "verified", VBool (User_Verified user));
      (list_ascii_of_string "avatar_url", VString (User_ProfileImageURL user));
      (list_ascii_of_string "stats",
       VObject
         [ (list_ascii_of_string "followers", VInt (User_FollowersCount user));
           (list_ascii_of_string "following", VInt (User_FollowingCount user));
           (list_ascii_of_string "posts", VInt (User_TweetCount user)) ]) ].

(** ** The application model (internal/ui, type App) *)

Inductive viewMode : Type := viewTimeline | viewProfile | viewSearch.

Section AppModel.

(** Go errors, with [err.Error()], and [transform.ToJSON]
    ([json.MarshalIndent]) with the string and the error it returns. *)
Variable error : Type.
Variable error_text : error -> bytes.
Variable ToJSON : DisguisedPayload -> bytes * option error.

(** The fields of [App] that the functions below read or write; the
    widgets of the framework (viewport, help, text input, key map) and the
    window size are left out. *)
Record App : Type := mkApp {
  mode : viewMode;
  loading : bool;
  err : option error;
  timeline : option DisguisedResponse;
  profile : option DisguisedPayload;
  searchResults : option DisguisedResponse;
  currentIndex : Z;
  nextToken : bytes;
  jsonContent : bytes;
  statusLine : bytes
}.

(** The state [NewApp] returns. *)
Definition NewApp : App :=
  mkApp viewTimeline false None None None None 0 [] []
        (list_ascii_of_string "Initializing...").

Definition set_currentIndex (i : Z) (a : App) : App :=
  mkApp (mode a) (loading a) (err a) (timeline a) (profile a)
        (searchResults a) i (nextToken a) (jsonContent a) (statusLine a).

Definition set_jsonContent (c : bytes) (a : App) : App :=
  mkApp (mode a) (loading a) (err a) (timeline a) (profile a)
        (searchResults a) (currentIndex a) (nextToken a) c (statusLine a).

(** [maxIndex] as [nextItem] computes it: zero unless the mode has a list
    and the list is there. *)
Definition maxIndex (a : App) : Z :=
  match mode a with
  | viewTimeline =>
      match timeline a with
      | Some t => (len (DR_Data t) - 1)%Z
      | None => 0%Z
      end
  | viewSearch =>
      match searchResults a with
      | Some r => (len (DR_Data r) - 1)%Z
      | None => 0%Z
      end
  | viewProfile => 0%Z
  end.

(** [nextItem]. *)
Definition nextItem (a : App) : App :=
  if (currentIndex a <? maxIndex a)%Z
  then set_currentIndex (wrap64 (currentIndex a + 1)) a
  else a.

(** [prevItem]. *)
Definition prevItem (a : App) : App :=
  if (0 <? currentIndex a)%Z
  then set_currentIndex (wrap64 (currentIndex a - 1)) a
  else a.

(** The item [updateContent] renders from a list: none when the list is
    not there or is empty, else the one at [currentIndex], which panics
    out of range. *)
Definition current_item (r : option DisguisedResponse) (i : Z)
  : res (option DisguisedPayload) :=
  match r with
  | Some resp =>
      if (0 <? len (DR_Data resp))%Z
      then item <- slice_index (DR_Data resp) i ;; Ok (Some item)
      else Ok None
  | None => Ok None
  end.

(** The text [updateContent] renders for the item to show: its JSON, the
    text of the error when [ToJSON] fails, nothing when there is no
    item. *)
Definition content_of (shown : option DisguisedPayload) : bytes :=
  let '(content, e) :=
    match shown with
    | Some item => ToJSON item
    | None => ([], None)
    end in
  match e with
  | Some e' => list_ascii_of_string "Error rendering JSON: " ++ error_text e'
  | None => content
  end.

(** The item the mode shows. *)
Definition shown_item (a : App) : res (option DisguisedPayload) :=
  match mode a with
  | viewTimeline => current_item (timeline a) (currentIndex a)
  | viewProfile => Ok (profile a)
  | viewSearch => current_item (searchResults a) (currentIndex a)
  end.

(** [updateContent]: that text, highlighted and stored in
    [jsonContent]. *)
Definition updateContent (a : App) : res App :=
  shown <- shown_item a ;;
  highlighted <- highlightJSON (content_of shown) ;;
  Ok (set_jsonContent highlighted a).

(** The status line of a data message:
    [fmt.Sprintf("GET %s - 200 OK (%sms)", msg.Endpoint, msg.Latency)]. *)
Definition status_ok (r : DisguisedResponse) : bytes :=
  list_ascii_of_string "GET " ++ DR_Endpoint r
  ++ list_ascii_of_string " - 200 OK (" ++ DR_Latency r
  ++ list_ascii_of_string "ms)".

(** [Update], case [timelineMsg]; [msg] is the response that the fetch
    command built, which is never [nil]. *)
Definition Update_timelineMsg (msg : DisguisedResponse) (a : App) : res App :=
  updateContent
    (mkApp viewTimeline false (err a) (Some msg) (profile a)
           (searchResults a) (currentIndex a) (nextToken a) (jsonContent a)
           (status_ok msg)).

(** [Update], case [profileMsg]. *)
Definition Update_profileMsg (msg : DisguisedPayload) (a : App) : res App :=
  updateContent
    (mkApp viewProfile false (err a) (timeline a) (Some msg)
           (searchResults a) (currentIndex a) (nextToken a) (jsonContent a)
           (list_ascii_of_string "GET " ++ DP_Endpoint msg
            ++ list_ascii_of_string " - 200 OK")).

(** [Update], case [searchMsg]. *)
Definition Update_searchMsg (msg : DisguisedResponse) (a : App) : res App :=
  updateContent
    (mkApp viewSearch false (err a) (timeline a) (profile a)
           (Some msg) (currentIndex a) (nextToken a) (jsonContent a)
           (status_ok msg)).

(** [Update], case [errMsg]. *)
Definition Update_errMsg (msg : error) (a : App) : App :=
  mkApp (mode a) false (Some msg) (timeline a) (profile a)
        (searchResults a) (currentIndex a) (nextToken a) (jsonContent a)
        (list_ascii_of_string "Error: " ++ error_text msg).

(** [Update], the key cases that move between items (taken when the
    search input is not open): [nextItem] or [prevItem], then
    [updateContent]. *)
Inductive nav : Type := Next | Prev.

Definition Update_nav (k : nav) (a : App) : res App :=
  updateContent (match k with Next => nextItem a | Prev => prevItem a end).

(** A run of such key presses. *)
Fixpoint Update_navs (ks : list nav) (a : App) : res App :=
  match ks with
  | [] => Ok a
  | k :: ks' => a' <- Update_nav k a ;; Update_navs ks' a'
  end.

(** [Update], the keys that go back to the first item before they fetch:
    refresh ([currentIndex = 0], [nextToken] emptied) and timeline (mode
    set, [currentIndex = 0]). *)
Definition Update_refresh (a : App) : App :=
  mkApp (mode a) true (err a) (timeline a) (profile a) (searchResults a)
        0 [] (jsonContent a) (list_ascii_of_string "GET /2/timeline/home...").

Definition Update_timeline_key (a : App) : App :=
  mkApp viewTimeline true (err a) (timeline a) (profile a) (searchResults a)
        0 (nextToken a) (jsonContent a)
        (list_ascii_of_string "GET /2/timeline/home...").

(** The list the mode shows, if it has one. *)
Definition shown_list (a : App) : option (list DisguisedPayload) :=
  match mode a with
  | viewTimeline => option_map DR_Data (timeline a)
  | viewSearch => option_map DR_Data (searchResults a)
  | viewProfile => None
  end.

(** [currentIndex] is an index of the list shown, when that list has an
    item; it is never negative. *)
Definition index_in_list (a : App) : Prop :=
  (0 <= currentIndex a)%Z
  /\ forall l, shown_list a = Some l -> l <> [] ->
               (currentIndex a < len l)%Z.

End AppModel.

Arguments mkApp {error}.
Arguments mode {error}.
Arguments loading {error}.
Arguments err {error}.
Arguments timeline {error}.
Arguments profile {error}.
Arguments searchResults {error}.
Arguments currentIndex {error}.
Arguments nextToken {error}.
Arguments jsonContent {error}.
Arguments statusLine {error}.
Arguments NewApp {error}.
Arguments set_currentIndex {error}.
Arguments set_jsonContent {error}.
Arguments maxIndex {error}.
Arguments nextItem {error}.
Arguments prevItem {error}.
Arguments content_of {error}.
Arguments shown_item {error}.
Arguments updateContent {error}.
Arguments Update_timelineMsg {error}.
Arguments Update_profileMsg {error}.
Arguments Update_searchMsg {error}.
Arguments Update_errMsg {error}.
Arguments Update_nav {error}.
Arguments Update_navs {error}.
Arguments Update_refresh {error}.
Arguments Update_timeline_key {error}.
Arguments shown_list {error}.
Arguments index_in_list {error}.

(** The integers of the state are Go [int]s and the lists are Go slices:
    the index is in the range of [int], and so is the length of each
    list. *)
Definition go_values {error : Type} (a : App error) : Prop :=
  (- 2 ^ 63 <= currentIndex a < 2 ^ 63)%Z
  /\ (forall r, timeline a = Some r \/ searchResults a = Some r ->
                (len (DR_Data r) < 2 ^ 63)%Z).

(** ** The author of a tweet, read off the list of users *)

Section Authors.

Variable time : Type.

(** The last user of the list whose id is the author id of the tweet; the
    unknown user when there is none or the response has no includes. *)
Definition author_of (includes : option (list User)) (tweet : Tweet time)
  : User :=
  match includes with
  | Some users =>
      match find (fun u => bytes_eqb (Tweet_AuthorID time tweet) (User_ID u))
                 (rev users) with
      | Some u => u
      | None => unknown_user
      end
  | None => unknown_user
  end.

(** What every payload made from a tweet has. *)
Definition status_payload (p : DisguisedPayload) : Prop :=
  DP_Type p = list_ascii_of_string "status_update"
  /\ DP_Status p = 200%Z
  /\ DP_Endpoint p = list_ascii_of_string "/v2/statuses/" ++ DP_ID p.

(** A payload with its [Timestamp] blanked: all of it but the reading of
    the clock. *)
Definition without_timestamp (p : DisguisedPayload) : DisguisedPayload :=
  mkDisguisedPayload (DP_ID p) (DP_Type p) (DP_Endpoint p) (DP_Status p) []
    (DP_Payload p).

End Authors.

Arguments Tweet_ID {time}.
Arguments Tweet_Text {time}.
Arguments Tweet_AuthorID {time}.
Arguments Tweet_CreatedAt {time}.
Arguments Tweet_Metrics {time}.
Arguments TR_Data {time}.
Arguments TR_Includes {time}.
Arguments TR_Meta {time}.
Arguments TransformTweet {time}.
Arguments transform_tweets {time}.
Arguments TransformTimeline {time}.
Arguments SR_Data {time}.
Arguments SR_Includes {time}.
Arguments SR_Meta {time}.
Arguments search_tweets {time}.
Arguments TransformSearch {time}.
Arguments author_of {time}.

(** ** What is on the screen *)

(** [jsonContent] is the highlighted JSON text of the item of [l] at
    [currentIndex]. *)
Definition renders_current {error : Type} (error_text : error -> bytes)
  (ToJSON : DisguisedPayload -> bytes * option error)
  (l : list DisguisedPayload) (a : App error) : Prop :=
  exists item,
    nth_error l (Z.to_nat (currentIndex a)) = Some item
    /\ highlightJSON (content_of error_text ToJSON (Some item))
       = Ok (jsonContent a).

(** ** Sample values *)

(** A payload with the id [id], a response with such payloads, and a
    [ToJSON] that gives the id of a payload. *)
Definition sample_payload (id : string) : DisguisedPayload :=
  mkDisguisedPayload (list_ascii_of_string id) [] [] 200 [] [].

Definition sample_response (ids : list string) : DisguisedResponse :=
  mkDisguisedResponse [] [] 200 [] (map sample_payload ids) None.

Definition sample_ToJSON (p : DisguisedPayload) : bytes * option unit :=
  (DP_ID p, None).

Definition sample_error_text (e : unit) : bytes := [].

(** The timeline mode at the second of three items. *)
Definition sample_app : App unit :=
  mkApp viewTimeline false None
        (Some (sample_response ["1"; "2"; "3"]%string)) None None
        1 [] [] [].

(** A response of two tweets; two of the three users included share the
    id [u1], and the author of the second tweet is not included. *)
Definition sample_user (id name : string) : User :=
  mkUser (list_ascii_of_string id) (list_ascii_of_string name)
         (list_ascii_of_string name) [] [] false 0 0 0.

Definition sample_tweet (id author : string) : Tweet unit :=
  mkTweet unit (list_ascii_of_string id) [] (list_ascii_of_string author) tt None.

Definition sample_tweets : TweetsResponse unit :=
  mkTweetsResponse unit
    [sample_tweet "t1" "u1"; sample_tweet "t2" "nobody"]
    (Some [sample_user "u1" "first"; sample_user "u2" "other";
           sample_user "u1" "second"])
    None.

Definition sample_format (t : unit) : bytes := [].

Definition sample_clock (k : nat) : unit := tt.

(** * Properties *)

(** ** The inputs, byte by byte *)

Lemma json_bytes :
  json "'\\'" = [dquote; backslash; backslash; dquote]
  /\ json "'a\'b'"
     = [dquote; "a"%char; backslash; dquote; "b"%char; dquote]
  /\ json "'a{b'" = [dquote; "a"%char; "{"%char; "b"%char; dquote]
  /\ json "-12.5e+3" = list_ascii_of_string "-12.5e+3".
Proof. repeat split. Qed.

(** ** Accesses in range *)

Lemma index_in_range (s : bytes) (i : nat) :
  i < length s -> exists c, nth_error s i = Some c /\ index s i = Ok c.
Proof.
  intros Hi. unfold index.
  destruct (nth_error s i) as [c|] eqn:E.
  - exists c. split; reflexivity.
  - apply nth_error_None in E. lia.
Qed.


Lemma firstn_snoc (s : bytes) (i : nat) (c : ascii) :
  nth_error s i = Some c -> firstn (i + 1) s = firstn i s ++ [c].
Proof.
  revert i. induction s as [|x s IH]; intros [|i] H; simpl in *; try discriminate.
  - injection H as ->. reflexivity.
  - f_equal. apply IH. exact H.
Qed.

Lemma firstn_plus (s : bytes) (i n : nat) :
  firstn (i + n) s = firstn i s ++ firstn n (skipn i s).
Proof.
  revert s. induction i as [|i IH]; intros s; simpl.
  - reflexivity.
  - destruct s as [|x s]; simpl.
    + now rewrite firstn_nil.
    + f_equal. apply IH.
Qed.

Lemma bytes_eqb_eq (a b : bytes) : bytes_eqb a b = true <-> a = b.
Proof.
  revert b. induction a as [|x a IH]; intros [|y b]; simpl; split;
    try discriminate; try reflexivity.
  - intros H. apply andb_true_iff in H as [Hx Ha].
    apply Ascii.eqb_eq in Hx. apply IH in Ha. congruence.
  - intros H. injection H as -> ->. apply andb_true_iff. split.
    + apply Ascii.eqb_refl.
    + now apply IH.
Qed.

Lemma slice_Ok (s : bytes) (i n : nat) (w : bytes) :
  slice s i (i + n) = Ok w -> firstn (i + n) s = firstn i s ++ w.
Proof.
  unfold slice. destruct ((i <=? i + n) && (i + n <=? length s)); try discriminate.
  intros H. injection H as <-.
  replace (i + n - i) with n by lia. apply firstn_plus.
Qed.

Lemma slice_in_range (s : bytes) (lo hi : nat) :
  lo <= hi -> hi <= length s -> exists w, slice s lo hi = Ok w.
Proof.
  intros H1 H2. unfold slice.
  apply Nat.leb_le in H1, H2. rewrite H1, H2. simpl. eauto.
Qed.

(** ** The builder and the text in it *)

Lemma strip_styles_app (a b : builder) :
  strip_styles (a ++ b) = strip_styles a ++ strip_styles b.
Proof. unfold strip_styles. apply flat_map_app. Qed.

Lemma strip_styles_WriteByte (c : ascii) (b : builder) :
  strip_styles (WriteByte c b) = strip_styles b ++ [c].
Proof. unfold WriteByte. now rewrite strip_styles_app. Qed.

Lemma strip_styles_WriteStyle (d : bytes) (b : builder) :
  strip_styles (WriteStyle d b) = strip_styles b.
Proof. unfold WriteStyle. rewrite strip_styles_app. simpl. apply app_nil_r. Qed.

Lemma strip_styles_text (w : bytes) : strip_styles (map Text w) = w.
Proof. induction w as [|c w IH]; simpl; [reflexivity | now f_equal]. Qed.

Lemma strip_styles_WriteString (w : bytes) (b : builder) :
  strip_styles (WriteString w b) = strip_styles b ++ w.
Proof. unfold WriteString. now rewrite strip_styles_app, strip_styles_text. Qed.

Create Rewrite HintDb strip.
#[local] Hint Rewrite strip_styles_WriteByte strip_styles_WriteStyle
  strip_styles_WriteString : strip.

Lemma styles_known_WriteByte (c : ascii) (b : builder) :
  styles_known b -> styles_known (WriteByte c b).
Proof.
  intros H. apply Forall_app. split; [exact H|].
  constructor; [exact I | constructor].
Qed.

Lemma styles_known_WriteStyle (d : bytes) (b : builder) :
  In d styles -> styles_known b -> styles_known (WriteStyle d b).
Proof.
  intros Hd H. apply Forall_app. split; [exact H|].
  constructor; [exact Hd | constructor].
Qed.

Lemma styles_known_WriteString (w : bytes) (b : builder) :
  styles_known b -> styles_known (WriteString w b).
Proof.
  intros H. apply Forall_app. split; [exact H|].
  apply Forall_map. apply Forall_forall. intros; exact I.
Qed.

Ltac known :=
  repeat first
    [ assumption
    | apply styles_known_WriteByte
    | apply styles_known_WriteString
    | apply styles_known_WriteStyle; [simpl; tauto|] ].

(** ** The inner loops end, and read inside the input *)

Lemma colon_scan_total (s : bytes) (fuel k : nat) :
  length s - k <= fuel -> exists b, colon_scan fuel s k = Ok b.
Proof.
  revert k. induction fuel as [|fuel IH]; intros k Hf; simpl.
  - destruct (k <? length s) eqn:E; [|eauto].
    apply Nat.ltb_lt in E. lia.
  - destruct (k <? length s) eqn:E; [|eauto].
    apply Nat.ltb_lt in E.
    destruct (index_in_range s k E) as (c & _ & ->). simpl.
    destruct (Ascii.eqb c ":"); [eauto|].
    destruct (negb (Ascii.eqb c " ") && negb (Ascii.eqb c newline)
              && negb (Ascii.eqb c tab)); [eauto|].
    apply IH. lia.
Qed.

Lemma quote_scan_total (s : bytes) (fuel j : nat) :
  length s - j <= fuel -> exists b, quote_scan fuel s j = Ok b.
Proof.
  revert j. induction fuel as [|fuel IH]; intros j Hf; simpl.
  - destruct (j <? length s) eqn:E; [|eauto].
    apply Nat.ltb_lt in E. lia.
  - destruct (j <? length s) eqn:E; [|eauto].
    apply Nat.ltb_lt in E.
    destruct (index_in_range s j E) as (c & _ & ->). simpl.
    destruct (Ascii.eqb c dquote).
    + apply colon_scan_total. lia.
    + apply IH. lia.
Qed.

Lemma isKey_total (s : bytes) (i : nat) : exists b, isKey s i = Ok b.
Proof. apply quote_scan_total. lia. Qed.

(** The number loop copies the bytes it passes, and nothing else. *)
Lemma number_loop_spec (s : bytes) (fuel i : nat) (b : builder) :
  i < length s -> length s - (i + 1) <= fuel ->
  strip_styles b = firstn (i + 1) s -> styles_known b ->
  exists i' b', number_loop fuel s i b = Ok (i', b')
    /\ i <= i' < length s
    /\ strip_styles b' = firstn (i' + 1) s
    /\ styles_known b'.
Proof.
  revert i b. induction fuel as [|fuel IH]; intros i b Hi Hf Hb Hk; simpl.
  - destruct (i + 1 <? length s) eqn:E.
    + apply Nat.ltb_lt in E. lia.
    + exists i, b. repeat split; auto.
  - destruct (i + 1 <? length s) eqn:E.
    + apply Nat.ltb_lt in E.
      destruct (index_in_range s (i + 1) E) as (c & Hc & ->). simpl.
      destruct (continues_number c).
      * destruct (IH (i + 1) (WriteByte c b)) as (i' & b' & H1 & H2 & H3 & H4);
          [lia | lia | | known |].
        { rewrite strip_styles_WriteByte, Hb. symmetry. now apply firstn_snoc. }
        exists i', b'. repeat split; auto; lia.
      * exists i, b. repeat split; auto.
    + exists i, b. repeat split; auto.
Qed.

(** The test of a literal case reads its slice only where the slice is
    inside the input; when it holds, the word is what the input has at
    [i]. *)
Lemma literal_here_spec (s : bytes) (i : nat) (c : ascii) (st : state)
  (first : ascii) (last len : nat) (word : string) :
  len = last + 1 ->
  exists b, literal_here s i c st first last len word = Ok b
    /\ (b = true ->
        i + last < length s
        /\ inString st = false
        /\ firstn (i + last + 1) s = firstn i s ++ list_ascii_of_string word).
Proof.
  intros ->. unfold literal_here.
  destruct (Ascii.eqb c first && negb (inString st) && (i + last <? length s)) eqn:E.
  - apply andb_true_iff in E as [E E3]. apply andb_true_iff in E as [_ E2].
    apply Nat.ltb_lt in E3. apply negb_true_iff in E2.
    destruct (slice_in_range s i (i + (last + 1))) as [w Hw]; [lia | lia |].
    rewrite Hw. simpl. eexists. split; [reflexivity|].
    intros Hb. apply bytes_eqb_eq in Hb. subst w.
    apply slice_Ok in Hw. rewrite Nat.add_assoc in Hw. auto.
  - exists false. split; [reflexivity | discriminate].
Qed.

(** ** One iteration

    The invariant of the main loop: the text written so far is the input
    up to [i].  One iteration keeps it, panics nowhere, and leaves [i]
    inside the input. *)

Ltac strip_simpl :=
  unfold emit_literal, emit_styled, set_afterColon, set_inString, write;
  cbn [result fst snd];
  autorewrite with strip.

(** Closes a branch of the body that is left at [i' = i + n]. *)
Ltac branch_done :=
  do 2 eexists; split; [reflexivity|]; split; [lia|];
  split; strip_simpl; [try congruence | known].

Lemma body_spec (s : bytes) (i : nat) (st : state) :
  i < length s -> copied_upto s i st ->
  exists i' st', body s i st = Ok (i', st')
    /\ i <= i' < length s
    /\ copied_upto s (i' + 1) st'.
Proof.
  unfold copied_upto. intros Hi [Hinv Hk].
  destruct (index_in_range s i Hi) as (c & Hc & Hidx).
  pose proof (firstn_snoc s i c Hc) as Hsnoc. rewrite <- Hinv in Hsnoc.
  unfold body. rewrite Hidx. cbn [bind].
  destruct (Ascii.eqb c dquote).
  { (* the quote *)
    assert (exists e, (if 0 <? i
                       then p <- index s (i - 1) ;; Ok (Ascii.eqb p backslash)
                       else Ok false) = Ok e) as [e ->].
    { destruct (0 <? i) eqn:E0; [|eauto].
      apply Nat.ltb_lt in E0.
      destruct (index_in_range s (i - 1)) as (p & _ & ->); [lia|].
      simpl. eauto. }
    cbn [bind].
    destruct e; [|destruct (inString st)].
    - branch_done.
    - branch_done.
    - destruct (isKey_total s i) as [k ->]. cbn [bind].
      destruct k; branch_done. }
  destruct (Ascii.eqb c ":" && negb (inString st)).
  { branch_done. }
  destruct (starts_number c).
  { destruct (negb (inString st) && afterColon st).
    - destruct (number_loop_spec s (length s) i
                  (WriteByte c (WriteStyle sgr_number (result st))))
        as (i' & b' & Hn & Hr & Hb & Hkb); [lia | lia | | known |].
      { autorewrite with strip. congruence. }
      rewrite Hn. cbn [bind]. branch_done.
    - branch_done. }
  destruct (literal_here_spec s i c st "t"%char 3 4 "true" eq_refl)
    as (bt & -> & Ht).
  cbn [bind]. destruct bt.
  { destruct Ht as (Hl & _ & Hw); [reflexivity|]. branch_done. }
  destruct (literal_here_spec s i c st "f"%char 4 5 "false" eq_refl)
    as (bf & -> & Hf).
  cbn [bind]. destruct bf.
  { destruct Hf as (Hl & _ & Hw); [reflexivity|]. branch_done. }
  destruct (literal_here_spec s i c st "n"%char 3 4 "null" eq_refl)
    as (bn & -> & Hn).
  cbn [bind]. destruct bn.
  { destruct Hn as (Hl & _ & Hw); [reflexivity|]. branch_done. }
  destruct (Ascii.eqb c "{" || Ascii.eqb c "}").
  { destruct (Ascii.eqb c "{"); branch_done. }
  destruct (Ascii.eqb c "[" || Ascii.eqb c "]").
  { destruct (Ascii.eqb c "["); branch_done. }
  destruct (Ascii.eqb c "," && negb (inString st)).
  { branch_done. }
  branch_done.
Qed.

(** ** The whole loop *)

Lemma loop_spec (s : bytes) (fuel i : nat) (st : state) :
  i <= length s -> length s - i <= fuel -> copied_upto s i st ->
  exists st', loop fuel s i st = Ok st' /\ copied_upto s (length s) st'.
Proof.
  revert i st. induction fuel as [|fuel IH]; intros i st Hi Hf Hinv; simpl.
  - replace i with (length s) in * by lia.
    rewrite Nat.ltb_irrefl. eauto.
  - destruct (i <? length s) eqn:E.
    + apply Nat.ltb_lt in E.
      destruct (body_spec s i st E Hinv) as (i' & st' & -> & Hr & Hinv').
      cbn [bind]. apply IH; [lia | lia | exact Hinv'].
    + apply Nat.ltb_ge in E. replace i with (length s) in * by lia. eauto.
Qed.

Lemma scan_spec (s : bytes) :
  exists st, scan s = Ok st
    /\ strip_styles (result st) = s /\ styles_known (result st).
Proof.
  destruct (loop_spec s (length s) 0 init) as (st & H1 & H2 & H3);
    [lia | lia | split; [reflexivity | constructor] |].
  exists st. split; [exact H1|]. split; [|exact H3].
  now rewrite firstn_all in H2.
Qed.

(** Taking the escape sequences out of a string drops a directive of the
    function whole. *)
Lemma strip_ansi_style (d r : bytes) :
  In d styles -> strip_ansi (d ++ r) = strip_ansi r.
Proof.
  unfold styles. simpl.
  intros H; repeat (destruct H as [<- | H]; [reflexivity|]); contradiction.
Qed.

Lemma strip_ansi_flatten (b : builder) :
  styles_known b -> no_escape (strip_styles b) ->
  strip_ansi (flatten b) = strip_styles b.
Proof.
  unfold no_escape.
  induction b as [|[c|d] b IH]; intros Hk He; simpl.
  - reflexivity.
  - inversion Hk; subst. simpl in He. inversion He; subst.
    unfold strip_ansi. simpl.
    match goal with H : Ascii.eqb c esc = false |- _ => rewrite H end.
    f_equal. now apply IH.
  - inversion Hk; subst. simpl in He.
    rewrite strip_ansi_style by assumption. now apply IH.
Qed.

(** C1. Losslessness: for every input [s], [highlightJSON s] returns the
    string held by a builder whose writes, once the inserted style
    directives are taken out, are exactly the bytes of [s], each once and
    in order; what was added is style directives of the function's own
    and nothing else.  When [s] has no escape byte of its own, taking the
    escape sequences out of the returned string gives [s] back. *)
Theorem highlightJSON_lossless (s : bytes) :
  exists b, highlight_chunks s = Ok b
    /\ highlightJSON s = Ok (flatten b)
    /\ strip_styles b = s
    /\ styles_known b
    /\ (no_escape s -> strip_ansi (flatten b) = s).
Proof.
  destruct (scan_spec s) as (st & Hs & Hr & Hk).
  exists (result st). unfold highlightJSON, highlight_chunks.
  rewrite Hs. cbn [bind]. repeat split; auto.
  intros He. rewrite strip_ansi_flatten; [exact Hr | exact Hk | now rewrite Hr].
Qed.

(** C10. Totality: on every input, the empty one and those that end inside
    a token included, [highlightJSON] returns a string: no index or slice
    access leaves the input, and every loop ends. *)
Theorem highlightJSON_total (s : bytes) :
  exists out, highlightJSON s = Ok out.
Proof.
  destruct (scan_spec s) as (st & Hs & _).
  unfold highlightJSON, highlight_chunks. rewrite Hs. cbn [bind]. eauto.
Qed.

(** ** The cases of the switch, one by one *)

Lemma index_nth (s : bytes) (i : nat) (c : ascii) :
  nth_error s i = Some c -> index s i = Ok c.
Proof. unfold index. now intros ->. Qed.

Lemma literal_here_other (s : bytes) (i : nat) (c : ascii) (st : state)
  (first : ascii) (last len : nat) (word : string) :
  Ascii.eqb c first = false ->
  literal_here s i c st first last len word = Ok false.
Proof. unfold literal_here. now intros ->. Qed.

Lemma literal_here_inString (s : bytes) (i : nat) (c : ascii) (st : state)
  (first : ascii) (last len : nat) (word : string) :
  inString st = true ->
  literal_here s i c st first last len word = Ok false.
Proof. unfold literal_here. intros ->. now rewrite andb_false_r. Qed.

(** A colon outside a string: styled, and the flag is set. *)
Lemma body_colon (s : bytes) (i : nat) (st : state) :
  nth_error s i = Some ":"%char -> inString st = false ->
  body s i st = Ok (i, set_afterColon true (emit_styled ":" sgr_colon st)).
Proof.
  intros Hc Hin. unfold body. rewrite (index_nth _ _ _ Hc). cbn [bind].
  rewrite Hin. reflexivity.
Qed.


(** An opening brace or bracket, inside a string or not: styled, and the
    flag is cleared. *)
Lemma body_open_brace (s : bytes) (i : nat) (st : state) :
  nth_error s i = Some "{"%char ->
  body s i st = Ok (i, set_afterColon false (emit_styled "{" sgr_brace st)).
Proof.
  intros Hc. unfold body. rewrite (index_nth _ _ _ Hc). reflexivity.
Qed.

Lemma body_close_brace (s : bytes) (i : nat) (st : state) :
  nth_error s i = Some "}"%char ->
  body s i st = Ok (i, emit_styled "}" sgr_brace st).
Proof.
  intros Hc. unfold body. rewrite (index_nth _ _ _ Hc). reflexivity.
Qed.


Lemma body_close_bracket (s : bytes) (i : nat) (st : state) :
  nth_error s i = Some "]"%char ->
  body s i st = Ok (i, emit_styled "]" sgr_bracket st).
Proof.
  intros Hc. unfold body. rewrite (index_nth _ _ _ Hc). reflexivity.
Qed.

Lemma escaped_test (s : bytes) (i : nat) :
  i < length s ->
  (if 0 <? i then p <- index s (i - 1) ;; Ok (Ascii.eqb p backslash)
   else Ok false) = Ok (after_backslash s i).
Proof.
  intros Hi. unfold after_backslash.
  destruct (0 <? i) eqn:E; [|reflexivity].
  destruct (index_in_range s (i - 1)) as (p & Hp & ->); [lia|].
  rewrite Hp. reflexivity.
Qed.

(** The quote case.  After a backslash the quote is copied and no flag
    moves; otherwise it closes the string when one is open (reset, both
    flags cleared) and opens one when none is (the style that [isKey]
    chooses, then the quote). *)
Lemma body_quote (s : bytes) (i : nat) (st : state) :
  nth_error s i = Some dquote ->
  exists key, isKey s i = Ok key /\
  body s i st =
    Ok (i,
        if after_backslash s i then write (WriteByte dquote) st
        else if inString st then
          set_afterColon false
            (set_inString false
               (write (WriteStyle sgr_reset) (write (WriteByte dquote) st)))
        else
          write (WriteByte dquote)
            (write (WriteStyle (if key then sgr_key else sgr_string))
               (set_inString true st))).
Proof.
  intros Hc. destruct (isKey_total s i) as [key Hk]. exists key.
  split; [exact Hk|].
  assert (Hi : i < length s) by (apply nth_error_Some; congruence).
  unfold body. rewrite (index_nth _ _ _ Hc). cbn [bind].
  change (Ascii.eqb dquote dquote) with true. cbv iota.
  rewrite (escaped_test s i Hi). cbn [bind].
  destruct (after_backslash s i); [reflexivity|].
  destruct (inString st); [reflexivity|].
  rewrite Hk. reflexivity.
Qed.

(** A byte that can start a number. *)
Lemma body_number (s : bytes) (i : nat) (c : ascii) (st : state) :
  nth_error s i = Some c -> starts_number c = true ->
  body s i st =
    if negb (inString st) && afterColon st then
      '(i', b) <- number_loop (length s) s i
                    (WriteByte c (WriteStyle sgr_number (result st))) ;;
      Ok (i', set_afterColon false
                (write (WriteStyle sgr_reset)
                   (mkState b (inString st) (afterColon st))))
    else Ok (i, write (WriteByte c) st).
Proof.
  intros Hc Hn. unfold body. rewrite (index_nth _ _ _ Hc). cbn [bind].
  assert (Ascii.eqb c dquote = false) as ->.
  { destruct (Ascii.eqb_spec c dquote) as [->|]; [discriminate Hn | reflexivity]. }
  assert (Ascii.eqb c ":" = false) as ->.
  { destruct (Ascii.eqb_spec c ":"%char) as [->|]; [discriminate Hn | reflexivity]. }
  cbn [andb]. rewrite Hn. reflexivity.
Qed.

(** ** The literal words *)

Lemma bytes_eqb_length (a b : bytes) :
  bytes_eqb a b = true -> length a = length b.
Proof. intros H. apply bytes_eqb_eq in H. now subst. Qed.

Lemma length_list_ascii_of_string (w : string) :
  length (list_ascii_of_string w) = String.length w.
Proof. induction w as [|c w IH]; simpl; [reflexivity | now f_equal]. Qed.

(** The test of a literal case is the word being there outside a string:
    the bound on [i] only keeps the slice inside the input. *)
Lemma literal_here_has_word (s : bytes) (i : nat) (st : state)
  (first : ascii) (last len : nat) (word : string) :
  len = last + 1 -> String.length word = len ->
  literal_here s i first st first last len word
  = Ok (negb (inString st) && has_word s i word).
Proof.
  intros -> Hlen. unfold literal_here, has_word. rewrite Ascii.eqb_refl. cbn [andb].
  destruct (inString st); cbn [negb andb]; [reflexivity|].
  destruct (i + last <? length s) eqn:E.
  - apply Nat.ltb_lt in E. unfold slice.
    replace (i <=? i + (last + 1)) with true by (symmetry; apply Nat.leb_le; lia).
    replace (i + (last + 1) <=? length s) with true
      by (symmetry; apply Nat.leb_le; lia).
    cbn [andb bind]. rewrite Hlen.
    replace (i + (last + 1) - i) with (last + 1) by lia. reflexivity.
  - apply Nat.ltb_ge in E.
    destruct (bytes_eqb _ _) eqn:B; [|reflexivity].
    apply bytes_eqb_length in B.
    rewrite length_list_ascii_of_string, length_firstn, length_skipn in B. lia.
Qed.

(** A [t], [f] or [n] that does not begin its word is copied as it is:
    no style, no flag moved, the index not advanced. *)
Lemma body_literal_mismatch (s : bytes) (i : nat) (st : state)
  (c : ascii) (word : string) :
  In (c, word) literals ->
  nth_error s i = Some c -> has_word s i word = false ->
  body s i st = Ok (i, write (WriteByte c) st).
Proof.
  intros Hin Hc Hw. unfold body. rewrite (index_nth _ _ _ Hc). cbn [bind].
  simpl in Hin.
  destruct Hin as [E | [E | [E | []]]]; injection E as <- <-; cbn [Ascii.eqb andb orb
    starts_number is_digit].
  - change (starts_number "t") with false. cbv iota.
    rewrite (literal_here_has_word s i st "t" 3 4 "true" eq_refl eq_refl), Hw, andb_false_r.
    reflexivity.
  - change (starts_number "f") with false. cbv iota.
    rewrite (literal_here_other s i "f" st "t") by reflexivity. cbn [bind].
    rewrite (literal_here_has_word s i st "f" 4 5 "false" eq_refl eq_refl), Hw, andb_false_r.
    reflexivity.
  - change (starts_number "n") with false. cbv iota.
    rewrite (literal_here_other s i "n" st "t") by reflexivity.
    rewrite (literal_here_other s i "n" st "f") by reflexivity. cbn [bind].
    rewrite (literal_here_has_word s i st "n" 3 4 "null" eq_refl eq_refl), Hw, andb_false_r.
    reflexivity.
Qed.

(** ** The flag [afterColon] *)






(** ** Structural characters (C2) *)

(** C2. The colon and the comma are treated as structure only outside a
    string, as the claim says, but the brace and bracket cases have no
    such test: on the input ['a{b'] (a quoted string of three bytes) the
    brace inside the string gets the brace style and a reset of its own,
    which also ends the colour of the string, so that the rest of the
    string comes out unstyled.  The same holds of every opening brace at
    any place inside a string. *)
Theorem brace_inside_string_restyled :
  rendering (json "'a{b'")
    ([Style sgr_string] ++ map Text (json "'a")
     ++ [Style sgr_brace; Text "{"%char; Style sgr_reset]
     ++ map Text (json "b'") ++ [Style sgr_reset])
    [(StringValue, json "'a"); (Brace, json "{"); (Plain, json "b'")]
    Plain
  /\ (forall s i st,
        nth_error s i = Some "{"%char -> inString st = true ->
        body s i st
        = Ok (i, set_afterColon false (emit_styled "{" sgr_brace st))).
Proof.
  split.
  - repeat split; vm_compute; reflexivity.
  - intros s i st Hc _. now apply body_open_brace.
Qed.

(** ** The flag that lets a number start (C3) *)



(** ** Escaped quotes (C4) *)

Lemma after_backslash_iff (s : bytes) (i : nat) :
  after_backslash s i = true
  <-> 0 < i /\ nth_error s (i - 1) = Some backslash.
Proof.
  unfold after_backslash. split.
  - intros H. apply andb_true_iff in H as [H0 Hp].
    apply Nat.ltb_lt in H0. split; [exact H0|].
    destruct (nth_error s (i - 1)) as [p|]; [|discriminate Hp].
    apply Ascii.eqb_eq in Hp. now subst.
  - intros [H0 Hp]. apply Nat.ltb_lt in H0. rewrite H0, Hp. reflexivity.
Qed.

(** A quote whose preceding byte is a backslash is copied, and neither the
    string flag nor the colour moves. *)
Lemma body_quote_after_backslash (s : bytes) (i : nat) (st : state) :
  nth_error s i = Some dquote -> after_backslash s i = true ->
  body s i st = Ok (i, write (WriteByte dquote) st).
Proof.
  intros Hc Hb. destruct (body_quote s i st Hc) as (key & _ & ->).
  now rewrite Hb.
Qed.

(** C4. The quote case handles escapes by looking at the one byte before
    the quote; there is no escape flag.  For the escaped quote of ['a\'b']
    that is enough: the string is one string value.  But a quote that
    follows an escaped backslash is taken for an escaped quote too:
    wherever the input holds backslash, backslash, quote, that quote is
    copied and the string is not closed.  On ['\\'] the loop ends inside
    the string with the string colour in force.  On the well-formed
    document [{'content': 'C:\\', 'id': '1'}] the closing quote of the
    first value does not close it: the string value runs on to the opening
    quote of ['id'], [id] and [1] are copied without a style, [': '] is
    styled as a string value, and the loop ends inside a string. *)
Theorem escaped_backslash_leaves_string_open :
  rendering (json "'a\'b'")
    ([Style sgr_string] ++ map Text (json "'a\'b'") ++ [Style sgr_reset])
    [(StringValue, json "'a\'b'")] Plain
  /\ (forall pre post st,
        let s := pre ++ [backslash; backslash; dquote] ++ post in
        let i := length pre + 2 in
        nth_error s i = Some dquote
        /\ exists st', body s i st = Ok (i, st')
             /\ inString st' = inString st
             /\ result st' = result st ++ [Text dquote])
  /\ (exists st, scan (json "'\\'") = Ok st /\ inString st = true)
  /\ rendering (json "'\\'")
       ([Style sgr_string] ++ map Text (json "'\\'"))
       [(StringValue, json "'\\'")] StringValue
  /\ (exists st, scan (json "{'content': 'C:\\', 'id': '1'}") = Ok st
                 /\ inString st = true)
  /\ rendering (json "{'content': 'C:\\', 'id': '1'}")
       ([Style sgr_brace; Text "{"%char; Style sgr_reset; Style sgr_key]
        ++ map Text (json "'content'")
        ++ [Style sgr_reset; Style sgr_colon; Text ":"%char; Style sgr_reset;
            Text " "%char; Style sgr_string]
        ++ map Text (json "'C:\\', '")
        ++ [Style sgr_reset; Text "i"%char; Text "d"%char; Style sgr_string]
        ++ map Text (json "': '")
        ++ [Style sgr_reset; Text "1"%char; Style sgr_string; Text dquote;
            Style sgr_brace; Text "}"%char; Style sgr_reset])
       [(Brace, json "{"); (Key, json "'content'"); (Colon, json ":");
        (Plain, json " "); (StringValue, json "'C:\\', '");
        (Plain, json "id"); (StringValue, json "': '"); (Plain, json "1");
        (StringValue, json "'"); (Brace, json "}")]
       Plain.
Proof.
  split; [repeat split; vm_compute; reflexivity|].
  split.
  { intros pre post st s i.
    assert (Hq : nth_error s i = Some dquote).
    { unfold s, i. rewrite nth_error_app2 by lia.
      replace (length pre + 2 - length pre) with 2 by lia. reflexivity. }
    assert (Hb : after_backslash s i = true).
    { apply after_backslash_iff. unfold s, i. split; [lia|].
      rewrite nth_error_app2 by lia.
      replace (length pre + 2 - 1 - length pre) with 1 by lia. reflexivity. }
    split; [exact Hq|].
    rewrite (body_quote_after_backslash s i st Hq Hb).
    eexists. split; [reflexivity|]. split; reflexivity. }
  split; [eexists; split; vm_compute; reflexivity|].
  split; [repeat split; vm_compute; reflexivity|].
  split; [eexists; split; vm_compute; reflexivity|].
  repeat split; vm_compute; reflexivity.
Qed.

(** ** Keys and string values (C5, C6) *)

(** The first quote byte after [j], if there is one. *)
Lemma quote_scan_at_quote (s : bytes) (fuel j : nat) :
  nth_error s j = Some dquote ->
  quote_scan (S fuel) s j = colon_scan (length s) s (j + 1).
Proof.
  intros Hc. assert (Hj : j < length s) by (apply nth_error_Some; congruence).
  simpl. apply Nat.ltb_lt in Hj. rewrite Hj, (index_nth _ _ _ Hc).
  cbn [bind]. reflexivity.
Qed.

(** C5. On the input of the claim, [{'a': 'b'}], the first string is
    styled as a key and the second as a string value.  But the style is
    chosen by a lookahead that takes the first quote byte after the
    opening quote for the closing one: on [{'a\'b': 1}], where the string
    holds an escaped quote and its closing quote is followed by a colon,
    the whole string is styled as a string value, not as a key. *)
Theorem key_with_escaped_quote_styled_as_value :
  rendering (json "{'a': 'b'}")
    ([Style sgr_brace; Text "{"%char; Style sgr_reset; Style sgr_key]
     ++ map Text (json "'a'")
     ++ [Style sgr_reset; Style sgr_colon; Text ":"%char; Style sgr_reset;
         Text " "%char; Style sgr_string]
     ++ map Text (json "'b'")
     ++ [Style sgr_reset; Style sgr_brace; Text "}"%char; Style sgr_reset])
    [(Brace, json "{"); (Key, json "'a'"); (Colon, json ":");
     (Plain, json " "); (StringValue, json "'b'"); (Brace, json "}")]
    Plain
  /\ rendering (json "{'a\'b': 1}")
    ([Style sgr_brace; Text "{"%char; Style sgr_reset; Style sgr_string]
     ++ map Text (json "'a\'b'")
     ++ [Style sgr_reset; Style sgr_colon; Text ":"%char; Style sgr_reset;
         Text " "%char; Style sgr_number; Text "1"%char; Style sgr_reset;
         Style sgr_brace; Text "}"%char; Style sgr_reset])
    [(Brace, json "{"); (StringValue, json "'a\'b'"); (Colon, json ":");
     (Plain, json " "); (Number, json "1"); (Brace, json "}")]
    Plain.
Proof. repeat split; vm_compute; reflexivity. Qed.

(** C6. The lookahead stops at the first quote byte after the opening
    quote, escaped or not: the test of its loop does not look at the byte
    before.  On [{'a\'b': 1}] the string opens at index 1; the quote at
    index 4 follows a backslash, and the main loop copies it as an escaped
    quote, yet the lookahead ends there, finds [b] after it and answers
    that the string is no key.  Had it gone on from index 5 to the quote
    at index 6, it would have found the colon. *)
Theorem lookahead_stops_at_escaped_quote :
  let s := json "{'a\'b': 1}" in
  nth_error s 4 = Some dquote
  /\ after_backslash s 4 = true
  /\ isKey s 1 = Ok false
  /\ quote_scan (length s) s 5 = Ok true
  /\ (forall (t : bytes) (fuel j : nat),
        nth_error t j = Some dquote ->
        quote_scan (S fuel) t j = colon_scan (length t) t (j + 1)).
Proof.
  cbv zeta. repeat split; try (vm_compute; reflexivity).
  intros t fuel j. apply quote_scan_at_quote.
Qed.

(** ** The reset (C7) and the string that never closes (C8) *)

(** C7. The reset of a string is written by the quote that closes it, and
    by nothing else: on ['b], a string that is never closed, the output is
    the string colour and the two bytes, and it ends with that colour in
    force. *)
Theorem unterminated_string_leaves_style_open :
  rendering (json "'b") ([Style sgr_string] ++ map Text (json "'b"))
    [(StringValue, json "'b")] StringValue
  /\ highlightJSON (json "'b") = Ok (sgr_string ++ json "'b").
Proof. repeat split; vm_compute; reflexivity. Qed.

(** C8. On the input of the claim, [{'a': 'b], the string that never
    closes is one string value up to the end, and the function returns.
    But a brace inside such a string is styled for itself and resets the
    colour (['a{b]), and when the string holds an escaped quote followed by
    a colon (['a\':]) the lookahead styles it as a key. *)
Theorem unterminated_string_rendering :
  rendering (json "{'a': 'b")
    ([Style sgr_brace; Text "{"%char; Style sgr_reset; Style sgr_key]
     ++ map Text (json "'a'")
     ++ [Style sgr_reset; Style sgr_colon; Text ":"%char; Style sgr_reset;
         Text " "%char; Style sgr_string]
     ++ map Text (json "'b"))
    [(Brace, json "{"); (Key, json "'a'"); (Colon, json ":");
     (Plain, json " "); (StringValue, json "'b")]
    StringValue
  /\ rendering (json "'a{b")
    ([Style sgr_string] ++ map Text (json "'a")
     ++ [Style sgr_brace; Text "{"%char; Style sgr_reset; Text "b"%char])
    [(StringValue, json "'a"); (Brace, json "{"); (Plain, json "b")]
    Plain
  /\ rendering (json "'a\':")
    ([Style sgr_key] ++ map Text (json "'a\':"))
    [(Key, json "'a\':")]
    Key.
Proof. repeat split; vm_compute; reflexivity. Qed.

(** ** Malformed literal words (C9) *)

(** C9. On [{'a': tru}] the function returns; [tru] is copied without a
    style, and the brace, the key, the colon and the closing brace are
    styled as in a well-formed input.  In general a [t], [f] or [n] at
    which the input does not have the whole word [true], [false] or [null],
    byte for byte, is copied as it is. *)
Theorem malformed_literal_degrades :
  rendering (json "{'a': tru}")
    ([Style sgr_brace; Text "{"%char; Style sgr_reset; Style sgr_key]
     ++ map Text (json "'a'")
     ++ [Style sgr_reset; Style sgr_colon; Text ":"%char; Style sgr_reset]
     ++ map Text (json " tru")
     ++ [Style sgr_brace; Text "}"%char; Style sgr_reset])
    [(Brace, json "{"); (Key, json "'a'"); (Colon, json ":");
     (Plain, json " tru"); (Brace, json "}")]
    Plain
  /\ (forall s i st c word,
        In (c, word) literals ->
        nth_error s i = Some c -> has_word s i word = false ->
        body s i st = Ok (i, write (WriteByte c) st)).
Proof.
  split.
  - repeat split; vm_compute; reflexivity.
  - intros s i st c word. apply body_literal_mismatch.
Qed.

(** * Further properties of the highlighter *)

(** ** A rule for invariants of the main loop *)

(** An invariant that holds at [i] and that every iteration carries to the
    index where the next one starts holds when the loop ends; the loop
    ends. *)
Lemma loop_invariant (s : bytes) (P : nat -> state -> Prop) :
  (forall i st, i < length s -> P i st ->
     exists i' st', body s i st = Ok (i', st')
       /\ i <= i' < length s /\ P (i' + 1) st') ->
  forall fuel i st,
    i <= length s -> length s - i <= fuel -> P i st ->
    exists st', loop fuel s i st = Ok st' /\ P (length s) st'.
Proof.
  intros Hstep. induction fuel as [|fuel IH]; intros i st Hi Hf HP; simpl.
  - replace i with (length s) in * by lia.
    rewrite Nat.ltb_irrefl. eauto.
  - destruct (i <? length s) eqn:E.
    + apply Nat.ltb_lt in E.
      destruct (Hstep i st E HP) as (i' & st' & -> & Hr & HP').
      cbn [bind]. apply IH; [lia | lia | exact HP'].
    + apply Nat.ltb_ge in E. replace i with (length s) in * by lia. eauto.
Qed.

Lemma scan_invariant (s : bytes) (P : nat -> state -> Prop) :
  (forall i st, i < length s -> P i st ->
     exists i' st', body s i st = Ok (i', st')
       /\ i <= i' < length s /\ P (i' + 1) st') ->
  P 0 init ->
  exists st, scan s = Ok st /\ P (length s) st.
Proof.
  intros Hstep H0. apply (loop_invariant s P Hstep); [lia | lia | exact H0].
Qed.

(** ** The number loop reads the longest run *)

Lemma skipn_cons_nth (s : bytes) (i : nat) (c : ascii) :
  nth_error s i = Some c -> skipn i s = c :: skipn (i + 1) s.
Proof.
  revert i. induction s as [|x s IH]; intros [|i] H; simpl in *; try discriminate.
  - now injection H as ->.
  - now apply IH.
Qed.

Lemma skipn_none (s : bytes) (i : nat) : length s <= i -> skipn i s = [].
Proof. intros H. now apply skipn_all2. Qed.

(** From [i], the number loop writes the longest run of number bytes that
    follows [i], and stops at its last byte. *)
Lemma number_loop_run (s : bytes) (fuel i : nat) (b : builder) :
  length s - (i + 1) <= fuel ->
  let run := take_while continues_number (skipn (i + 1) s) in
  number_loop fuel s i b = Ok (i + length run, b ++ map Text run).
Proof.
  revert i b. induction fuel as [|fuel IH]; intros i b Hf; cbv zeta; simpl.
  - destruct (i + 1 <? length s) eqn:E.
    + apply Nat.ltb_lt in E. lia.
    + apply Nat.ltb_ge in E. rewrite (skipn_none s (i + 1) E). simpl.
      now rewrite Nat.add_0_r, app_nil_r.
  - destruct (i + 1 <? length s) eqn:E.
    + apply Nat.ltb_lt in E.
      destruct (index_in_range s (i + 1) E) as (c & Hc & ->). cbn [bind].
      rewrite (skipn_cons_nth s (i + 1) c Hc). simpl.
      destruct (continues_number c).
      * rewrite IH by lia. cbv zeta. unfold WriteByte. simpl.
        rewrite <- app_assoc. simpl. do 2 f_equal. lia.
      * simpl. now rewrite Nat.add_0_r, app_nil_r.
    + apply Nat.ltb_ge in E. rewrite (skipn_none s (i + 1) E). simpl.
      now rewrite Nat.add_0_r, app_nil_r.
Qed.

(** ** Every iteration is one of the outcomes *)

Lemma take_while_length (p : ascii -> bool) (l : bytes) :
  length (take_while p l) <= length l.
Proof.
  induction l as [|c l IH]; simpl; [lia|].
  destruct (p c); simpl; lia.
Qed.

Lemma has_word_bound (s : bytes) (i : nat) (word : string) :
  has_word s i word = true -> i + String.length word <= length s \/ word = EmptyString.
Proof.
  unfold has_word. intros H. apply bytes_eqb_length in H.
  rewrite length_list_ascii_of_string, length_firstn, length_skipn in H.
  destruct word; [now right | left]. cbn [String.length] in *. lia.
Qed.

Lemma body_outcome (s : bytes) (i : nat) (st : state) :
  i < length s ->
  exists i' st', body s i st = Ok (i', st') /\ outcome s i st i' st'.
Proof.
  intros Hi. destruct (index_in_range s i Hi) as (c & Hc & _).
  destruct (Ascii.eqb_spec c dquote) as [->|Hq].
  { destruct (body_quote s i st Hc) as (key & Hk & ->).
    do 2 eexists. split; [reflexivity|].
    destruct (after_backslash s i); [now apply out_copy|].
    destruct (inString st) eqn:Hin.
    - now apply out_close.
    - now apply (out_open s i st key). }
  destruct (Ascii.eqb_spec c ":"%char) as [->|Hcolon].
  { destruct (inString st) eqn:Hin.
    - do 2 eexists. split; [|now apply (out_copy s i st ":"%char)].
      unfold body. rewrite (index_nth _ _ _ Hc). cbn [bind]. rewrite Hin.
      rewrite !literal_here_inString by exact Hin. reflexivity.
    - rewrite (body_colon s i st Hc Hin).
      do 2 eexists. split; [reflexivity|]. now apply out_colon. }
  destruct (starts_number c) eqn:Hn.
  { rewrite (body_number s i c st Hc Hn).
    destruct (negb (inString st) && afterColon st) eqn:E.
    - apply andb_true_iff in E as [E1 E2]. apply negb_true_iff in E1.
      rewrite number_loop_run by lia. cbv zeta. cbn [bind].
      do 2 eexists. split; [reflexivity|].
      replace (set_afterColon false _)
        with (numbered c (take_while continues_number (skipn (i + 1) s)) st).
      + now apply out_number.
      + unfold numbered, set_afterColon, write, WriteStyle, WriteByte.
        cbn [result inString afterColon]. f_equal.
        rewrite <- !app_assoc. reflexivity.
    - do 2 eexists. split; [reflexivity|]. now apply out_copy. }
  assert (Hbody : body s i st =
    (is_true <- literal_here s i c st "t"%char 3 4 "true" ;;
     if is_true then Ok (emit_literal i st sgr_true 3 "true")
     else
       is_false <- literal_here s i c st "f"%char 4 5 "false" ;;
       if is_false then Ok (emit_literal i st sgr_false 4 "false")
       else
         is_null <- literal_here s i c st "n"%char 3 4 "null" ;;
         if is_null then Ok (emit_literal i st sgr_null 3 "null")
         else if Ascii.eqb c "{"%char || Ascii.eqb c "}"%char then
           let st' := emit_styled c sgr_brace st in
           Ok (i, if Ascii.eqb c "{"%char then set_afterColon false st' else st')
         else if Ascii.eqb c "["%char || Ascii.eqb c "]"%char then
           let st' := emit_styled c sgr_bracket st in
           Ok (i, if Ascii.eqb c "["%char then set_afterColon false st' else st')
         else if Ascii.eqb c ","%char && negb (inString st) then
           Ok (i, set_afterColon false (write (WriteByte c) st))
         else Ok (i, write (WriteByte c) st))).
  { unfold body. rewrite (index_nth _ _ _ Hc). cbn [bind].
    destruct (Ascii.eqb_spec c dquote); [contradiction|].
    destruct (Ascii.eqb_spec c ":"%char); [contradiction|].
    cbn [andb]. rewrite Hn. reflexivity. }
  rewrite Hbody. clear Hbody.
  assert (Hword : forall first last len word style,
            len = last + 1 -> String.length word = len ->
            In (first, word) literals -> literal_style first = style ->
            (exists b, literal_here s i c st first last len word = Ok b /\
              (b = true ->
               outcome s i st (fst (emit_literal i st style last word))
                 (snd (emit_literal i st style last word))))).
  { intros first last len word style Hlen Hw Hl Hs.
    destruct (Ascii.eqb_spec c first) as [->|Hne].
    - rewrite (literal_here_has_word s i st first last len word Hlen Hw).
      eexists. split; [reflexivity|]. intros Hb.
      apply andb_true_iff in Hb as [Hin Hhas]. apply negb_true_iff in Hin.
      subst style. replace last with (String.length word - 1) by lia.
      now apply out_literal.
    - rewrite literal_here_other
        by (destruct (Ascii.eqb_spec c first); [contradiction | reflexivity]).
      eexists. split; [reflexivity | discriminate]. }
  destruct (Hword "t"%char 3 4 "true"%string sgr_true eq_refl eq_refl)
    as (bt & -> & Ht); [simpl; tauto | reflexivity |]. cbn [bind].
  destruct bt.
  { do 2 eexists. split; [unfold emit_literal; reflexivity|].
    now apply Ht. }
  destruct (Hword "f"%char 4 5 "false"%string sgr_false eq_refl eq_refl)
    as (bf & -> & Hf); [simpl; tauto | reflexivity |]. cbn [bind].
  destruct bf.
  { do 2 eexists. split; [unfold emit_literal; reflexivity|].
    now apply Hf. }
  destruct (Hword "n"%char 3 4 "null"%string sgr_null eq_refl eq_refl)
    as (bn & -> & Hnull); [simpl; tauto | reflexivity |]. cbn [bind].
  destruct bn.
  { do 2 eexists. split; [unfold emit_literal; reflexivity|].
    now apply Hnull. }
  clear Hword Ht Hf Hnull. cbv zeta.
  destruct (Ascii.eqb_spec c "{"%char) as [->|Hob].
  { do 2 eexists. split; [reflexivity|].
    apply (out_open_paren s i st "{"%char sgr_brace Hc). now left. }
  destruct (Ascii.eqb_spec c "}"%char) as [->|Hcb].
  { do 2 eexists. split; [reflexivity|].
    apply (out_close_paren s i st "}"%char sgr_brace Hc). now left. }
  cbn [orb].
  destruct (Ascii.eqb_spec c "["%char) as [->|Hok].
  { do 2 eexists. split; [reflexivity|].
    apply (out_open_paren s i st "["%char sgr_bracket Hc). now right. }
  destruct (Ascii.eqb_spec c "]"%char) as [->|Hck].
  { do 2 eexists. split; [reflexivity|].
    apply (out_close_paren s i st "]"%char sgr_bracket Hc). now right. }
  cbn [orb].
  destruct (Ascii.eqb_spec c ","%char) as [->|Hcomma].
  { destruct (inString st) eqn:Hin; cbn [andb negb].
    - do 2 eexists. split; [reflexivity|]. now apply out_copy.
    - do 2 eexists. split; [reflexivity|]. now apply out_comma. }
  cbn [andb]. do 2 eexists. split; [reflexivity|]. now apply out_copy.
Qed.

(** An iteration is left inside the input. *)
Lemma outcome_in_range (s : bytes) (i i' : nat) (st st' : state) :
  outcome s i st i' st' -> i <= i' < length s.
Proof.
  assert (Hnth : forall c, nth_error s i = Some c -> i < length s)
    by (intros c H; apply nth_error_Some; congruence).
  destruct 1; try (split; [lia | eauto]).
  - pose proof (take_while_length continues_number (skipn (i + 1) s)) as Hl.
    rewrite length_skipn in Hl. specialize (Hnth _ H). lia.
  - destruct (has_word_bound s i word H2) as [Hb | ->].
    + specialize (Hnth _ H0). lia.
    + simpl in H. destruct H as [E | [E | [E | []]]]; discriminate E.
Qed.

(** X1. A number token is the byte that starts it and the longest run of
    bytes from [0-9 . e E + -] after it: where the flag holds outside a
    string, the iteration at a digit, [-] or [.] writes the number style,
    those bytes and the reset, stops at the last byte of the run and clears
    the flag. *)
Theorem number_token_longest_run (s : bytes) (i : nat) (c : ascii) (st : state) :
  nth_error s i = Some c -> starts_number c = true ->
  inString st = false -> afterColon st = true ->
  let run := take_while continues_number (skipn (i + 1) s) in
  body s i st
  = Ok (i + length run,
        mkState (result st ++ Style sgr_number :: map Text (c :: run)
                 ++ [Style sgr_reset])
                false false).
Proof.
  intros Hc Hn Hin Ha. cbv zeta.
  rewrite (body_number s i c st Hc Hn), Hin, Ha. cbn [negb andb].
  rewrite number_loop_run by lia. cbv zeta. cbn [bind].
  unfold set_afterColon, write, WriteStyle, WriteByte.
  cbn [result inString afterColon].
  rewrite <- !app_assoc. reflexivity.
Qed.

Lemma number_token_longest_run_witness :
  let s := json "-1.5e+3x9" in
  let st := mkState [] false true in
  body s 0 st
  = Ok (6, mkState (Style sgr_number :: map Text (json "-1.5e+3")
                    ++ [Style sgr_reset]) false false).
Proof.
  cbv zeta.
  exact (number_token_longest_run (json "-1.5e+3x9") 0 "-"%char
           (mkState [] false true) eq_refl eq_refl eq_refl eq_refl).
Defined.

(** ** What an iteration writes *)

Lemma flatten_app (a b : builder) : flatten (a ++ b) = flatten a ++ flatten b.
Proof. unfold flatten. apply flat_map_app. Qed.

Lemma flatten_text (w : bytes) : flatten (map Text w) = w.
Proof. induction w as [|c w IH]; simpl; [reflexivity | now f_equal]. Qed.

Lemma style_at_end_app (cur : category) (a b : builder) :
  style_at_end cur (a ++ b) = style_at_end (style_at_end cur a) b.
Proof.
  revert cur. induction a as [|[c|d] a IH]; intros cur; simpl; auto.
Qed.

Lemma style_at_end_text (cur : category) (w : bytes) :
  style_at_end cur (map Text w) = cur.
Proof. induction w as [|c w IH]; simpl; auto. Qed.

(** What was written by an iteration, with its text and its size: the
    iteration copies the bytes it passes, [i] to [i'], and adds at most
    twenty bytes of directives for each. *)
Lemma outcome_writes (s : bytes) (i i' : nat) (st st' : state) :
  outcome s i st i' st' ->
  exists added, result st' = result st ++ added
    /\ i' + 1 - i <= length (flatten added) <= 20 * (i' + 1 - i).
Proof.
  destruct 1;
    unfold closed, opened, numbered, emit_literal, emit_styled,
      set_afterColon, set_inString, write, WriteByte, WriteStyle, WriteString;
    cbn [result snd]; rewrite <- ?app_assoc;
    eexists; (split; [reflexivity|]).
  - simpl. lia.
  - simpl. lia.
  - destruct key; simpl; lia.
  - simpl. lia.
  - change (Style sgr_number :: ?l) with ([Style sgr_number] ++ l).
    rewrite !flatten_app, flatten_text, !length_app.
    change (length (flatten [Style sgr_number])) with 11.
    change (length (flatten [Style sgr_reset])) with 4.
    cbn [length]. lia.
  - simpl in H. destruct H as [E | [E | [E | []]]]; injection E as <- <-;
      simpl; lia.
  - destruct H0 as [[-> ->] | [-> ->]]; simpl; lia.
  - destruct H0 as [[-> ->] | [-> ->]]; simpl; lia.
  - simpl. lia.
Qed.

(** X2. The size of the output: on every input the returned string is at
    least as long as the input and at most twenty times as long. *)
Theorem highlightJSON_size (s : bytes) :
  exists out, highlightJSON s = Ok out
    /\ length s <= length out <= 20 * length s.
Proof.
  destruct (scan_invariant s
              (fun i st => i <= length (flatten (result st)) <= 20 * i))
    as (st & Hs & Hb).
  - intros i st Hi HP.
    destruct (body_outcome s i st Hi) as (i' & st' & Hbody & Hout).
    exists i', st'. split; [exact Hbody|].
    pose proof (outcome_in_range s i i' st st' Hout) as Hr.
    split; [exact Hr|].
    destruct (outcome_writes s i i' st st' Hout) as (added & -> & Ha).
    rewrite flatten_app, length_app. lia.
  - simpl. lia.
  - exists (flatten (result st)). unfold highlightJSON, highlight_chunks.
    rewrite Hs. cbn [bind]. split; [reflexivity | exact Hb].
Qed.

(** ** Where a colour can stay in force *)

Lemma outcome_style_settled (s : bytes) (i i' : nat) (st st' : state) :
  outcome s i st i' st' -> style_settled st -> style_settled st'.
Proof.
  unfold style_settled.
  destruct 1; intros Hst;
    unfold closed, opened, numbered, emit_literal, emit_styled,
      set_afterColon, set_inString, write, WriteByte, WriteStyle, WriteString;
    cbn [result inString snd];
    rewrite ?style_at_end_app, ?style_at_end_text;
    cbn [style_at_end]; rewrite ?style_at_end_text.
  - exact Hst.
  - now left.
  - right. split; [reflexivity|]. destruct key; [now left | now right].
  - now left.
  - change (Style sgr_number :: ?l) with ([Style sgr_number] ++ l).
    rewrite !style_at_end_app, style_at_end_text. now left.
  - now left.
  - now left.
  - now left.
  - destruct Hst as [Hp | [Hin _]]; [now left | congruence].
Qed.

(** X3. The output ends with a colour in force only when the input ends
    inside a string, and then it is the key or the string colour: whenever
    the loop ends outside a string, the last directive written (if any) is
    the reset. *)
Theorem style_open_only_inside_string (s : bytes) :
  exists st, scan s = Ok st
    /\ (inString st = false -> style_at_end Plain (result st) = Plain)
    /\ (style_at_end Plain (result st) = Plain
        \/ style_at_end Plain (result st) = Key
        \/ style_at_end Plain (result st) = StringValue).
Proof.
  destruct (scan_invariant s (fun _ st => style_settled st)) as (st & Hs & Hb).
  - intros i st Hi HP.
    destruct (body_outcome s i st Hi) as (i' & st' & Hbody & Hout).
    exists i', st'. split; [exact Hbody|].
    split; [exact (outcome_in_range s i i' st st' Hout)|].
    exact (outcome_style_settled s i i' st st' Hout HP).
  - now left.
  - exists st. split; [exact Hs|]. destruct Hb as [Hp | [Hin Hk]].
    + split; [intros _; exact Hp | now left].
    + split; [congruence | right; exact Hk].
Qed.

(** ** Text without structure *)

Lemma plain_text_byte (s : bytes) (i : nat) (c : ascii) :
  plain_text s = true -> nth_error s i = Some c ->
  ends_plain_run c = false /\ c <> ":"%char.
Proof.
  unfold plain_text. intros H Hc. apply andb_true_iff in H as [H _].
  rewrite forallb_forall in H. specialize (H c (nth_error_In _ _ Hc)).
  apply andb_true_iff in H as [H1 H2].
  apply negb_true_iff in H1, H2. split; [exact H1|].
  intros ->. discriminate H2.
Qed.

Lemma plain_text_word (s : bytes) (i : nat) (c : ascii) (word : string) :
  plain_text s = true -> i < length s -> In (c, word) literals ->
  has_word s i word = false.
Proof.
  unfold plain_text. intros H Hi Hl. apply andb_true_iff in H as [_ H].
  rewrite forallb_forall in H.
  assert (Hin : In i (seq 0 (length s))) by (apply in_seq; lia).
  specialize (H i Hin).
  apply andb_true_iff in H as [H H3]. apply andb_true_iff in H as [H1 H2].
  apply negb_true_iff in H1, H2, H3.
  simpl in Hl. destruct Hl as [E | [E | [E | []]]]; injection E as <- <-;
    assumption.
Qed.

(** X4. Text that has no quote, colon, brace or bracket, and in which none
    of the words [true], [false], [null] stands, comes back as it is:
    nothing is inserted, digits and commas included. *)
Theorem highlightJSON_plain_text (s : bytes) :
  plain_text s = true -> highlightJSON s = Ok s.
Proof.
  intros Hp.
  destruct (scan_invariant s
              (fun i st => st = mkState (map Text (firstn i s)) false false))
    as (st & Hs & Hb).
  - intros i st Hi ->.
    destruct (body_outcome s i (mkState (map Text (firstn i s)) false false) Hi)
      as (i' & st' & Hbody & Hout).
    exists i', st'. split; [exact Hbody|].
    pose proof (outcome_in_range _ _ _ _ _ Hout) as Hr.
    revert Hr.
    assert (Hcopy : forall c, nth_error s i = Some c ->
              mkState (map Text (firstn i s) ++ [Text c]) false false
              = mkState (map Text (firstn (i + 1) s)) false false).
    { intros c Hc. rewrite (firstn_snoc s i c Hc), map_app. reflexivity. }
    assert (Hno : forall c, nth_error s i = Some c -> ends_plain_run c = false)
      by (intros c Hc; exact (proj1 (plain_text_byte s i c Hp Hc))).
    destruct Hout as [c Hc | Hc Hin | key Hc Hin Hk | Hc Hin
                     | c Hc Hn Hin Ha | c word Hl Hc Hin Hw
                     | c style Hc Hs | c style Hc Hs | Hc Hin];
      intros Hr; (split; [exact Hr|]);
      cbn [inString afterColon] in *.
    all: try discriminate.
    all: try (apply Hno in Hc; discriminate Hc).
    + now apply Hcopy.
    + destruct (plain_text_byte s i _ Hp Hc) as [_ Hne]. now contradiction Hne.
    + rewrite (plain_text_word s i c word Hp Hi Hl) in Hw. discriminate Hw.
    + destruct Hs as [[-> _] | [-> _]]; apply Hno in Hc; discriminate Hc.
    + destruct Hs as [[-> _] | [-> _]]; apply Hno in Hc; discriminate Hc.
    + now apply (Hcopy ","%char).
  - reflexivity.
  - unfold highlightJSON, highlight_chunks. rewrite Hs, Hb. cbn [bind result].
    now rewrite firstn_all, flatten_text.
Qed.

Lemma highlightJSON_plain_text_witness :
  highlightJSON (json "status 200, 3 items  -1.5") = Ok (json "status 200, 3 items  -1.5").
Proof.
  exact (highlightJSON_plain_text (json "status 200, 3 items  -1.5") eq_refl).
Defined.

(** ** The lookahead, read off the rest of the input *)

Lemma colon_scan_ahead (s : bytes) (fuel k : nat) :
  length s - k <= fuel -> colon_scan fuel s k = Ok (colon_ahead (skipn k s)).
Proof.
  revert k. induction fuel as [|fuel IH]; intros k Hf; simpl.
  - destruct (k <? length s) eqn:E.
    + apply Nat.ltb_lt in E. lia.
    + apply Nat.ltb_ge in E. now rewrite (skipn_none s k E).
  - destruct (k <? length s) eqn:E.
    + apply Nat.ltb_lt in E.
      destruct (index_in_range s k E) as (c & Hc & ->). cbn [bind].
      rewrite (skipn_cons_nth s k c Hc). simpl.
      destruct (Ascii.eqb c ":"); [reflexivity|].
      unfold is_blank.
      destruct (Ascii.eqb c " "), (Ascii.eqb c newline), (Ascii.eqb c tab);
        cbn [negb andb orb]; try reflexivity; apply IH; lia.
    + apply Nat.ltb_ge in E. now rewrite (skipn_none s k E).
Qed.

Lemma quote_scan_ahead (s : bytes) (fuel j : nat) :
  length s - j <= fuel -> quote_scan fuel s j = Ok (key_ahead (skipn j s)).
Proof.
  revert j. induction fuel as [|fuel IH]; intros j Hf; simpl.
  - destruct (j <? length s) eqn:E.
    + apply Nat.ltb_lt in E. lia.
    + apply Nat.ltb_ge in E. now rewrite (skipn_none s j E).
  - destruct (j <? length s) eqn:E.
    + apply Nat.ltb_lt in E.
      destruct (index_in_range s j E) as (c & Hc & ->). cbn [bind].
      rewrite (skipn_cons_nth s j c Hc). simpl.
      destruct (Ascii.eqb c dquote).
      * apply colon_scan_ahead. lia.
      * apply IH. lia.
    + apply Nat.ltb_ge in E. now rewrite (skipn_none s j E).
Qed.

Lemma colon_ahead_iff (l : bytes) :
  colon_ahead l = true
  <-> exists blanks rest,
        l = blanks ++ ":"%char :: rest
        /\ Forall (fun c => is_blank c = true) blanks.
Proof.
  induction l as [|c l IH]; simpl.
  - split; [discriminate|]. intros (blanks & rest & H & _).
    destruct blanks; discriminate H.
  - destruct (Ascii.eqb_spec c ":"%char) as [->|Hc].
    + split; [|reflexivity]. intros _. exists [], l. split; [reflexivity | constructor].
    + destruct (is_blank c) eqn:Hb.
      * rewrite IH. split.
        -- intros (blanks & rest & -> & Hf). exists (c :: blanks), rest.
           split; [reflexivity | now constructor].
        -- intros (blanks & rest & H & Hf). destruct blanks as [|b blanks].
           ++ injection H as -> _. contradiction.
           ++ injection H as -> ->. inversion Hf; subst. eauto.
      * split; [discriminate|]. intros (blanks & rest & H & Hf).
        destruct blanks as [|b blanks].
        -- injection H as -> _. contradiction.
        -- injection H as -> ->. inversion Hf; subst. congruence.
Qed.

Lemma key_ahead_iff (l : bytes) :
  key_ahead l = true
  <-> exists inner blanks rest,
        l = inner ++ dquote :: blanks ++ ":"%char :: rest
        /\ Forall (fun c => c <> dquote) inner
        /\ Forall (fun c => is_blank c = true) blanks.
Proof.
  induction l as [|c l IH]; simpl.
  - split; [discriminate|]. intros (inner & blanks & rest & H & _).
    destruct inner; discriminate H.
  - destruct (Ascii.eqb_spec c dquote) as [->|Hc].
    + rewrite colon_ahead_iff. split.
      * intros (blanks & rest & -> & Hf). exists [], blanks, rest.
        split; [reflexivity|]. split; [constructor | exact Hf].
      * intros (inner & blanks & rest & H & Hi & Hf).
        destruct inner as [|b inner].
        -- simpl in H. injection H as ->. exists blanks, rest. now split.
        -- simpl in H. injection H as <- _. inversion Hi; subst. contradiction.
    + rewrite IH. split.
      * intros (inner & blanks & rest & -> & Hi & Hf).
        exists (c :: inner), blanks, rest.
        split; [reflexivity|]. split; [now constructor | exact Hf].
      * intros (inner & blanks & rest & H & Hi & Hf).
        destruct inner as [|b inner].
        -- simpl in H. injection H as -> _. contradiction.
        -- simpl in H. injection H as -> ->. inversion Hi; subst.
           exists inner, blanks, rest. now repeat split.
Qed.

(** X5. The key test for the string that opens at [i] answers yes exactly
    when the input after [i] is: bytes without a quote, a quote, then
    spaces, newlines and tabs only, then a colon.  It never fails, and
    depends on nothing before [i + 1]. *)
Theorem isKey_iff (s : bytes) (i : nat) :
  (exists key, isKey s i = Ok key)
  /\ (isKey s i = Ok true
      <-> exists inner blanks rest,
            skipn (i + 1) s = inner ++ dquote :: blanks ++ ":"%char :: rest
            /\ Forall (fun c => c <> dquote) inner
            /\ Forall (fun c => is_blank c = true) blanks).
Proof.
  assert (H : isKey s i = Ok (key_ahead (skipn (i + 1) s)))
    by (apply quote_scan_ahead; lia).
  split; [eauto|]. rewrite H, <- key_ahead_iff.
  split; [now intros [= ->] | now intros ->].
Qed.

(** ** A whole string *)







(** * The application model *)

Lemma highlightJSON_Ok (s : bytes) : exists out, highlightJSON s = Ok out.
Proof.
  destruct (scan_spec s) as (st & Hs & _).
  unfold highlightJSON, highlight_chunks. rewrite Hs. cbn [bind]. eauto.
Qed.

Lemma wrap64_id (n : Z) : (- 2 ^ 63 <= n < 2 ^ 63)%Z -> wrap64 n = n.
Proof.
  intros H. unfold wrap64.
  rewrite Z.mod_small by lia. lia.
Qed.

Lemma slice_index_Ok {A : Type} (l : list A) (i : Z) :
  (0 <= i < len l)%Z -> exists x, slice_index l i = Ok x
                                  /\ nth_error l (Z.to_nat i) = Some x.
Proof.
  unfold slice_index, len. intros H.
  destruct (i <? 0)%Z eqn:E; [apply Z.ltb_lt in E; lia|].
  destruct (nth_error l (Z.to_nat i)) as [x|] eqn:En; [eauto|].
  apply nth_error_None in En. lia.
Qed.

Lemma slice_index_Panic {A : Type} (l : list A) (i : Z) :
  ~ (0 <= i < len l)%Z -> slice_index l i = Panic.
Proof.
  unfold slice_index, len. intros H.
  destruct (i <? 0)%Z eqn:E; [reflexivity|]. apply Z.ltb_ge in E.
  destruct (nth_error l (Z.to_nat i)) as [x|] eqn:En; [|reflexivity].
  assert (Z.to_nat i < length l)%nat by (apply nth_error_Some; congruence).
  lia.
Qed.

Lemma len_pos {A : Type} (l : list A) : (0 <? len l)%Z = true <-> l <> [].
Proof.
  unfold len. destruct l; simpl; split; try congruence; try discriminate.
  - intros _. reflexivity.
Qed.

Section AppProperties.

Variable error : Type.
Variable error_text : error -> bytes.
Variable ToJSON : DisguisedPayload -> bytes * option error.

(** ** [updateContent] *)

Lemma current_item_in_range (resp : DisguisedResponse) (i : Z) :
  (0 <= i < len (DR_Data resp))%Z ->
  exists x, current_item (Some resp) i = Ok (Some x)
            /\ nth_error (DR_Data resp) (Z.to_nat i) = Some x.
Proof.
  intros H. unfold current_item.
  replace (0 <? len (DR_Data resp))%Z with true by (symmetry; apply Z.ltb_lt; lia).
  destruct (slice_index_Ok (DR_Data resp) i H) as (x & -> & Hx).
  cbn [bind]. eauto.
Qed.

Lemma current_item_Panic (r : option DisguisedResponse) (i : Z) :
  current_item r i = Panic
  <-> exists l, option_map DR_Data r = Some l /\ l <> []
                /\ ~ (0 <= i < len l)%Z.
Proof.
  destruct r as [resp|]; simpl.
  - destruct (0 <? len (DR_Data resp))%Z eqn:E0.
    + assert (Hne : DR_Data resp <> []) by now apply len_pos.
      destruct (Z_le_dec 0 i) as [H0|H0];
        [destruct (Z_lt_dec i (len (DR_Data resp))) as [H1|H1]|].
      * destruct (slice_index_Ok (DR_Data resp) i) as (x & -> & _); [lia|].
        cbn [bind]. split; [discriminate|].
        intros (l & [= <-] & _ & Hn). lia.
      * rewrite slice_index_Panic by lia. cbn [bind].
        split; [|reflexivity]. intros _. exists (DR_Data resp).
        repeat split; [exact Hne | lia].
      * rewrite slice_index_Panic by lia. cbn [bind].
        split; [|reflexivity]. intros _. exists (DR_Data resp).
        repeat split; [exact Hne | lia].
    + split; [discriminate|].
      intros (l & [= <-] & Hne & _). apply len_pos in Hne. congruence.
  - split; [discriminate|]. intros (l & H & _). discriminate H.
Qed.

Lemma current_item_not_out_of_fuel (r : option DisguisedResponse) (i : Z) :
  current_item r i <> OutOfFuel.
Proof.
  destruct r as [resp|]; simpl; [|discriminate].
  destruct (0 <? len (DR_Data resp))%Z; [|discriminate].
  unfold slice_index. destruct (i <? 0)%Z; [discriminate|].
  destruct (nth_error _ _); discriminate.
Qed.

Lemma shown_item_Panic (a : App error) :
  shown_item a = Panic
  <-> exists l, shown_list a = Some l /\ l <> []
                /\ ~ (0 <= currentIndex a < len l)%Z.
Proof.
  unfold shown_item, shown_list. destruct (mode a).
  - apply current_item_Panic.
  - split; [discriminate|]. intros (l & H & _). discriminate H.
  - apply current_item_Panic.
Qed.

Lemma shown_item_not_out_of_fuel (a : App error) : shown_item a <> OutOfFuel.
Proof.
  unfold shown_item. destruct (mode a);
    [apply current_item_not_out_of_fuel | discriminate
    | apply current_item_not_out_of_fuel].
Qed.

(** Once the item is there, [updateContent] returns: what it stores is
    the highlighted text of the item. *)
Lemma updateContent_Ok (a : App error) (shown : option DisguisedPayload) :
  shown_item a = Ok shown ->
  exists out, highlightJSON (content_of error_text ToJSON shown) = Ok out
    /\ updateContent error_text ToJSON a = Ok (set_jsonContent out a).
Proof.
  intros H. unfold updateContent. rewrite H. cbn [bind].
  destruct (highlightJSON_Ok (content_of error_text ToJSON shown)) as [out Ho].
  rewrite Ho. cbn [bind]. eauto.
Qed.

(** X7. [updateContent] panics exactly when the mode shows a list that has
    an item and [currentIndex] is not an index of it; in every other state
    it returns, and changes [jsonContent] only. *)
Theorem updateContent_panics_iff (a : App error) :
  (updateContent error_text ToJSON a = Panic
   <-> exists l, shown_list a = Some l /\ l <> []
                 /\ ~ (0 <= currentIndex a < len l)%Z)
  /\ (updateContent error_text ToJSON a = Panic
      \/ exists out,
           updateContent error_text ToJSON a = Ok (set_jsonContent out a)).
Proof.
  rewrite <- shown_item_Panic.
  destruct (shown_item a) as [shown| |] eqn:Hs.
  - destruct (updateContent_Ok a shown Hs) as (out & _ & Hu).
    rewrite Hu. split; [split; discriminate | right; eauto].
  - unfold updateContent. rewrite Hs. cbn [bind]. split; [tauto | now left].
  - now apply shown_item_not_out_of_fuel in Hs.
Qed.

(** ** Moving between items *)

Lemma shown_list_maxIndex (a : App error) (l : list DisguisedPayload) :
  shown_list a = Some l -> maxIndex a = (len l - 1)%Z.
Proof.
  unfold shown_list, maxIndex. destruct (mode a).
  - destruct (timeline a); [|discriminate]. now intros [= <-].
  - discriminate.
  - destruct (searchResults a); [|discriminate]. now intros [= <-].
Qed.

Lemma shown_list_fits (a : App error) (l : list DisguisedPayload) :
  go_values a -> shown_list a = Some l -> (len l < 2 ^ 63)%Z.
Proof.
  intros [_ Hf]. unfold shown_list. destruct (mode a).
  - destruct (timeline a) as [r|] eqn:E; [|discriminate].
    intros [= <-]. apply Hf. now left.
  - discriminate.
  - destruct (searchResults a) as [r|] eqn:E; [|discriminate].
    intros [= <-]. apply Hf. now right.
Qed.

Lemma maxIndex_fits (a : App error) :
  go_values a -> (maxIndex a < 2 ^ 63)%Z.
Proof.
  intros Hg. destruct (shown_list a) as [l|] eqn:E.
  - rewrite (shown_list_maxIndex a l E).
    pose proof (shown_list_fits a l Hg E). lia.
  - unfold shown_list, maxIndex in *. destruct (mode a).
    + destruct (timeline a); [discriminate | lia].
    + lia.
    + destruct (searchResults a); [discriminate | lia].
Qed.

Lemma nextItem_index (a : App error) :
  go_values a ->
  nextItem a
  = if (currentIndex a <? maxIndex a)%Z
    then set_currentIndex (currentIndex a + 1) a else a.
Proof.
  intros Hg. unfold nextItem.
  destruct (currentIndex a <? maxIndex a)%Z eqn:E; [|reflexivity].
  apply Z.ltb_lt in E. pose proof (maxIndex_fits a Hg). destruct Hg as [Hi _].
  rewrite wrap64_id by lia. reflexivity.
Qed.

Lemma prevItem_index (a : App error) :
  go_values a ->
  prevItem a
  = if (0 <? currentIndex a)%Z
    then set_currentIndex (currentIndex a - 1) a else a.
Proof.
  intros [Hi _]. unfold prevItem.
  destruct (0 <? currentIndex a)%Z eqn:E; [|reflexivity].
  apply Z.ltb_lt in E. rewrite wrap64_id by lia. reflexivity.
Qed.

Lemma set_currentIndex_keeps (i : Z) (a : App error) :
  (- 2 ^ 63 <= i < 2 ^ 63)%Z -> go_values a ->
  go_values (set_currentIndex i a)
  /\ shown_list (set_currentIndex i a) = shown_list a
  /\ maxIndex (set_currentIndex i a) = maxIndex a.
Proof.
  intros Hi [_ Hf]. split; [|split; reflexivity].
  split; [exact Hi | exact Hf].
Qed.

Lemma moved_in_list (a : App error) :
  go_values a -> index_in_list a ->
  (go_values (nextItem a) /\ index_in_list (nextItem a)
   /\ shown_list (nextItem a) = shown_list a)
  /\ (go_values (prevItem a) /\ index_in_list (prevItem a)
      /\ shown_list (prevItem a) = shown_list a).
Proof.
  intros Hg Hin. pose proof Hin as [H0 Hl].
  pose proof (maxIndex_fits a Hg) as Hm.
  pose proof Hg as [Hi _]. split.
  - rewrite (nextItem_index a Hg).
    destruct (currentIndex a <? maxIndex a)%Z eqn:E; [|split; [exact Hg | split; [exact Hin | reflexivity]]].
    apply Z.ltb_lt in E.
    destruct (set_currentIndex_keeps (currentIndex a + 1) a) as (Hg' & Hs & _);
      [lia | exact Hg |].
    split; [exact Hg'|]. split; [|exact Hs]. split; [simpl; lia|].
    intros l Hsl Hne. rewrite Hs in Hsl.
    rewrite (shown_list_maxIndex a l Hsl) in E. simpl. lia.
  - rewrite (prevItem_index a Hg).
    destruct (0 <? currentIndex a)%Z eqn:E; [|split; [exact Hg | split; [exact Hin | reflexivity]]].
    apply Z.ltb_lt in E.
    destruct (set_currentIndex_keeps (currentIndex a - 1) a) as (Hg' & Hs & _);
      [lia | exact Hg |].
    split; [exact Hg'|]. split; [|exact Hs]. split; [simpl; lia|].
    intros l Hsl Hne. rewrite Hs in Hsl.
    specialize (Hl l Hsl Hne). simpl. lia.
Qed.

(** X8. Moving to the next or the previous item keeps [currentIndex] an
    index of the list shown: it is never negative, and never at or past
    the end of a list that has an item. *)
Theorem navigation_keeps_index_in_list (a : App error) :
  go_values a -> index_in_list a ->
  (go_values (nextItem a) /\ index_in_list (nextItem a))
  /\ (go_values (prevItem a) /\ index_in_list (prevItem a)).
Proof.
  intros Hg Hin.
  destruct (moved_in_list a Hg Hin) as ((H1 & H2 & _) & (H3 & H4 & _)).
  auto.
Qed.

(** Where the index is an index of the list shown, [updateContent]
    returns. *)
Lemma updateContent_in_list (a : App error) :
  index_in_list a ->
  exists out, updateContent error_text ToJSON a = Ok (set_jsonContent out a).
Proof.
  intros [H0 Hl].
  destruct (shown_item a) as [shown| |] eqn:Hs.
  - destruct (updateContent_Ok a shown Hs) as (out & _ & Hu). eauto.
  - apply shown_item_Panic in Hs as (l & Hsl & Hne & Hn).
    specialize (Hl l Hsl Hne). lia.
  - now apply shown_item_not_out_of_fuel in Hs.
Qed.

Lemma set_jsonContent_keeps (out : bytes) (a : App error) :
  (go_values a -> go_values (set_jsonContent out a))
  /\ (index_in_list a -> index_in_list (set_jsonContent out a))
  /\ shown_list (set_jsonContent out a) = shown_list a
  /\ currentIndex (set_jsonContent out a) = currentIndex a.
Proof.
  split; [intros Hg; exact Hg|]. split; [intros Hi; exact Hi|].
  split; reflexivity.
Qed.

Lemma navigation_step (k : nav) (a : App error) :
  go_values a -> index_in_list a ->
  exists a', Update_nav error_text ToJSON k a = Ok a'
    /\ go_values a' /\ index_in_list a'
    /\ shown_list a' = shown_list a.
Proof.
  intros Hg Hin.
  assert (Hmoved : exists b, (match k with Next => nextItem a | Prev => prevItem a end) = b
                    /\ go_values b /\ index_in_list b
                    /\ shown_list b = shown_list a).
  { destruct (moved_in_list a Hg Hin) as ((Hg1 & Hi1 & Hs1) & (Hg2 & Hi2 & Hs2)).
    destruct k; eexists; split; try reflexivity; auto. }
  destruct Hmoved as (b & Hb & Hgb & Hib & Hsb).
  unfold Update_nav. rewrite Hb.
  destruct (updateContent_in_list b Hib) as (out & ->).
  destruct (set_jsonContent_keeps out b) as (K1 & K2 & K3 & _).
  eexists. split; [reflexivity|].
  split; [exact (K1 Hgb)|]. split; [exact (K2 Hib)|].
  now rewrite K3.
Qed.

(** X9. No run of next and previous key presses panics: from a state in
    which the index is an index of the list shown, every press renders an
    item, and the list shown stays the same. *)
Theorem navigation_never_panics (ks : list nav) (a : App error) :
  go_values a -> index_in_list a ->
  exists a', Update_navs error_text ToJSON ks a = Ok a'
    /\ go_values a' /\ index_in_list a'
    /\ shown_list a' = shown_list a.
Proof.
  revert a. induction ks as [|k ks IH]; intros a Hg Hin; simpl.
  - eauto.
  - destruct (navigation_step k a Hg Hin) as (a1 & Hn & Hg1 & Hin1 & Hs1).
    rewrite Hn. cbn [bind].
    destruct (IH a1 Hg1 Hin1) as (a' & Hr & Hg' & Hin' & Hs').
    exists a'. split; [exact Hr|]. split; [exact Hg'|].
    split; [exact Hin'|]. now rewrite Hs'.
Qed.

(** ** The data messages *)

Lemma updateContent_Panic (a : App error) :
  updateContent error_text ToJSON a = Panic <-> shown_item a = Panic.
Proof.
  destruct (shown_item a) as [shown| |] eqn:Hs.
  - destruct (updateContent_Ok a shown Hs) as (out & _ & ->).
    split; discriminate.
  - unfold updateContent. rewrite Hs. cbn [bind]. tauto.
  - now apply shown_item_not_out_of_fuel in Hs.
Qed.

(** X10. A timeline or search message panics exactly when its list has an
    item and the index the state was left with is not an index of that
    list: neither case of [Update] resets or checks [currentIndex].  A
    profile message never panics. *)
Theorem data_message_panics_iff (msg : DisguisedResponse) (a : App error) :
  (Update_timelineMsg error_text ToJSON msg a = Panic
   <-> DR_Data msg <> []
       /\ ~ (0 <= currentIndex a < len (DR_Data msg))%Z)
  /\ (Update_searchMsg error_text ToJSON msg a = Panic
      <-> DR_Data msg <> []
          /\ ~ (0 <= currentIndex a < len (DR_Data msg))%Z)
  /\ (forall p, Update_profileMsg error_text ToJSON p a <> Panic).
Proof.
  split; [|split].
  - unfold Update_timelineMsg. rewrite updateContent_Panic, shown_item_Panic.
    unfold shown_list. cbn [mode timeline currentIndex option_map]. split.
    + intros (l & [= <-] & H). exact H.
    + intros H. eauto.
  - unfold Update_searchMsg. rewrite updateContent_Panic, shown_item_Panic.
    unfold shown_list. cbn [mode searchResults currentIndex option_map]. split.
    + intros (l & [= <-] & H). exact H.
    + intros H. eauto.
  - intros p. unfold Update_profileMsg. rewrite updateContent_Panic.
    discriminate.
Qed.

(** X11. A data message that arrives while the first item is current is
    always rendered: the timeline delivered at start-up, or right after the
    refresh or the timeline key, cannot panic, and it leaves the index an
    index of the list shown. *)
Theorem message_at_first_item_renders (msg : DisguisedResponse) (a : App error) :
  currentIndex a = 0%Z ->
  (exists a', Update_timelineMsg error_text ToJSON msg a = Ok a'
              /\ index_in_list a' /\ shown_list a' = Some (DR_Data msg))
  /\ (exists a', Update_searchMsg error_text ToJSON msg a = Ok a'
                 /\ index_in_list a' /\ shown_list a' = Some (DR_Data msg)).
Proof.
  intros H0.
  assert (Hin : forall b : App error,
            currentIndex b = 0%Z -> shown_list b = Some (DR_Data msg) ->
            exists a', updateContent error_text ToJSON b = Ok a'
              /\ index_in_list a' /\ shown_list a' = Some (DR_Data msg)).
  { intros b Hb Hs.
    assert (Hi : index_in_list b).
    { split; [lia|]. intros l Hl Hne. rewrite Hs in Hl. injection Hl as <-.
      rewrite Hb. apply len_pos in Hne. now apply Z.ltb_lt. }
    destruct (updateContent_in_list b Hi) as (out & ->).
    eexists. split; [reflexivity|]. split; [exact Hi | exact Hs]. }
  split; apply Hin; try exact H0; reflexivity.
Qed.

(** X12. A crash that the keys can reach: after a timeline of two or more
    items is shown at start-up and the next key is pressed, a search result
    with a single item panics in [Update] (index out of range). *)
Theorem search_after_next_panics (t r : DisguisedResponse) :
  (2 <= len (DR_Data t))%Z -> (len (DR_Data r) = 1)%Z ->
  exists a1 a2,
    Update_timelineMsg error_text ToJSON t NewApp = Ok a1
    /\ Update_nav error_text ToJSON Next a1 = Ok a2
    /\ currentIndex a2 = 1%Z
    /\ Update_searchMsg error_text ToJSON r a2 = Panic.
Proof.
  intros Ht Hr.
  (* the timeline arrives *)
  set (b := mkApp viewTimeline false (err (@NewApp error)) (Some t)
              (profile (@NewApp error)) (searchResults (@NewApp error))
              (currentIndex (@NewApp error)) (nextToken (@NewApp error))
              (jsonContent (@NewApp error))
              (status_ok t)).
  assert (Hib : index_in_list b).
  { split; [simpl; lia|]. intros l [= <-] _. simpl. lia. }
  destruct (updateContent_in_list b Hib) as (out1 & Hu1).
  exists (set_jsonContent out1 b).
  (* the next key *)
  assert (Hnext : nextItem (set_jsonContent out1 b)
                  = set_currentIndex 1 (set_jsonContent out1 b)).
  { unfold nextItem, maxIndex. cbn [mode timeline currentIndex set_jsonContent b].
    change (currentIndex (@NewApp error)) with 0%Z.
    replace (0 <? len (DR_Data t) - 1)%Z with true
      by (symmetry; apply Z.ltb_lt; lia).
    rewrite wrap64_id by lia. reflexivity. }
  assert (Hic : index_in_list (set_currentIndex 1 (set_jsonContent out1 b))).
  { split; [simpl; lia|]. intros l [= <-] _. simpl. lia. }
  destruct (updateContent_in_list _ Hic) as (out2 & Hu2).
  eexists. split; [exact Hu1|].
  split; [unfold Update_nav; rewrite Hnext; exact Hu2|].
  split; [reflexivity|].
  (* the search result *)
  unfold Update_searchMsg. rewrite updateContent_Panic, shown_item_Panic.
  exists (DR_Data r). split; [reflexivity|].
  split; [apply len_pos; apply Z.ltb_lt; lia|].
  cbn [currentIndex set_jsonContent set_currentIndex]. lia.
Qed.

(** ** Where repeated presses end *)

Lemma iter_next_invariant (n : nat) (a : App error) :
  go_values a -> index_in_list a ->
  go_values (Nat.iter n nextItem a) /\ index_in_list (Nat.iter n nextItem a)
  /\ shown_list (Nat.iter n nextItem a) = shown_list a.
Proof.
  intros Hg Hin. induction n as [|n (IHg & IHi & IHs)]; simpl; [auto|].
  destruct (moved_in_list _ IHg IHi) as ((H1 & H2 & H3) & _).
  split; [exact H1|]. split; [exact H2|]. now rewrite H3.
Qed.

Lemma iter_prev_invariant (n : nat) (a : App error) :
  go_values a -> index_in_list a ->
  go_values (Nat.iter n prevItem a) /\ index_in_list (Nat.iter n prevItem a)
  /\ shown_list (Nat.iter n prevItem a) = shown_list a.
Proof.
  intros Hg Hin. induction n as [|n (IHg & IHi & IHs)]; simpl; [auto|].
  destruct (moved_in_list _ IHg IHi) as (_ & (H1 & H2 & H3)).
  split; [exact H1|]. split; [exact H2|]. now rewrite H3.
Qed.

(** X13. Where repeated presses end: [n] times next from index [i] of a
    list with an item stops at [min (i + n) (len - 1)], the last item; [n]
    times previous stops at [max (i - n) 0], the first. *)
Theorem repeated_navigation (n : nat) (a : App error)
  (l : list DisguisedPayload) :
  go_values a -> index_in_list a -> shown_list a = Some l -> l <> [] ->
  currentIndex (Nat.iter n nextItem a)
  = Z.min (currentIndex a + Z.of_nat n) (len l - 1)
  /\ currentIndex (Nat.iter n prevItem a)
     = Z.max (currentIndex a - Z.of_nat n) 0.
Proof.
  intros Hg Hin Hs Hne. pose proof Hin as [H0 Hl]. specialize (Hl l Hs Hne).
  split.
  - induction n as [|n IH]; [simpl; lia|].
    destruct (iter_next_invariant n a Hg Hin) as (Hgn & _ & Hsn).
    change (Nat.iter (S n) nextItem a) with (nextItem (Nat.iter n nextItem a)).
    rewrite (nextItem_index _ Hgn).
    rewrite Hs in Hsn. rewrite (shown_list_maxIndex _ l Hsn).
    destruct (currentIndex (Nat.iter n nextItem a) <? len l - 1)%Z eqn:E.
    + apply Z.ltb_lt in E. cbn [currentIndex set_currentIndex]. lia.
    + apply Z.ltb_ge in E. lia.
  - induction n as [|n IH]; [simpl; lia|].
    destruct (iter_prev_invariant n a Hg Hin) as (Hgn & _ & _).
    change (Nat.iter (S n) prevItem a) with (prevItem (Nat.iter n prevItem a)).
    rewrite (prevItem_index _ Hgn).
    destruct (0 <? currentIndex (Nat.iter n prevItem a))%Z eqn:E.
    + apply Z.ltb_lt in E. cbn [currentIndex set_currentIndex]. lia.
    + apply Z.ltb_ge in E. lia.
Qed.

End AppProperties.

(** ** The theorems above at sample values *)

Lemma sample_app_go_values : go_values sample_app.
Proof.
  split; [simpl; lia|].
  intros r [[= <-] | H]; [unfold len; simpl; lia | discriminate H].
Qed.

Lemma sample_app_index_in_list : index_in_list sample_app.
Proof.
  split; [simpl; lia|]. intros l [= <-] _. unfold len. simpl. lia.
Qed.

Lemma navigation_keeps_index_in_list_witness :
  (go_values (nextItem sample_app) /\ index_in_list (nextItem sample_app))
  /\ (go_values (prevItem sample_app) /\ index_in_list (prevItem sample_app)).
Proof.
  exact (navigation_keeps_index_in_list unit sample_app
           sample_app_go_values sample_app_index_in_list).
Defined.

Lemma navigation_never_panics_witness :
  exists a', Update_navs sample_error_text sample_ToJSON
               [Next; Next; Next; Prev] sample_app = Ok a'
    /\ go_values a' /\ index_in_list a'
    /\ shown_list a' = shown_list sample_app.
Proof.
  exact (navigation_never_panics unit sample_error_text sample_ToJSON
           [Next; Next; Next; Prev] sample_app
           sample_app_go_values sample_app_index_in_list).
Defined.

Lemma message_at_first_item_renders_witness :
  (exists a', Update_timelineMsg sample_error_text sample_ToJSON
                (sample_response ["7"%string]) NewApp = Ok a'
              /\ index_in_list a'
              /\ shown_list a' = Some (DR_Data (sample_response ["7"%string])))
  /\ (exists a', Update_searchMsg sample_error_text sample_ToJSON
                   (sample_response ["7"%string]) NewApp = Ok a'
                 /\ index_in_list a'
                 /\ shown_list a' = Some (DR_Data (sample_response ["7"%string]))).
Proof.
  exact (message_at_first_item_renders unit sample_error_text sample_ToJSON
           (sample_response ["7"%string]) NewApp eq_refl).
Defined.

Lemma search_after_next_panics_witness :
  exists a1 a2,
    Update_timelineMsg sample_error_text sample_ToJSON
      (sample_response ["1"; "2"]%string) NewApp = Ok a1
    /\ Update_nav sample_error_text sample_ToJSON Next a1 = Ok a2
    /\ currentIndex a2 = 1%Z
    /\ Update_searchMsg sample_error_text sample_ToJSON
         (sample_response ["9"%string]) a2 = Panic.
Proof.
  apply (search_after_next_panics unit sample_error_text sample_ToJSON
           (sample_response ["1"; "2"]%string) (sample_response ["9"%string])).
  - unfold len. simpl. lia.
  - reflexivity.
Defined.

Lemma repeated_navigation_witness :
  currentIndex (Nat.iter 5 nextItem sample_app) = 2%Z
  /\ currentIndex (Nat.iter 5 prevItem sample_app) = 0%Z.
Proof.
  exact (repeated_navigation unit 5 sample_app
           (DR_Data (sample_response ["1"; "2"; "3"]%string))
           sample_app_go_values sample_app_index_in_list eq_refl
           ltac:(discriminate)).
Defined.

(** * The transform *)

Lemma bytes_eqb_refl (a : bytes) : bytes_eqb a a = true.
Proof. now apply bytes_eqb_eq. Qed.

Lemma bytes_eqb_neq (a b : bytes) : a <> b -> bytes_eqb a b = false.
Proof.
  intros H. destruct (bytes_eqb a b) eqn:E; [|reflexivity].
  apply bytes_eqb_eq in E. contradiction.
Qed.

(** ** Go maps: what a lookup finds after a store *)

Lemma map_get_remove {V : Type} (k k' : bytes) (m : gomap V) :
  map_get k (map_remove k' m) = if bytes_eqb k k' then None else map_get k m.
Proof.
  induction m as [|[k0 v] m IH]; simpl.
  - now destruct (bytes_eqb k k').
  - destruct (bytes_eqb k' k0) eqn:E0.
    + rewrite IH. destruct (bytes_eqb k k') eqn:E; [reflexivity|].
      apply bytes_eqb_eq in E0. subst k0. now rewrite E.
    + simpl. rewrite IH. destruct (bytes_eqb k k0) eqn:E1; [|reflexivity].
      destruct (bytes_eqb k k') eqn:E; [|reflexivity].
      apply bytes_eqb_eq in E, E1. subst. now rewrite bytes_eqb_refl in E0.
Qed.

Lemma map_get_set {V : Type} (k k' : bytes) (v : V) (m : gomap V) :
  map_get k (map_set k' v m) = if bytes_eqb k k' then Some v else map_get k m.
Proof.
  unfold map_set. simpl. destruct (bytes_eqb k k') eqn:E; [reflexivity|].
  now rewrite map_get_remove, E.
Qed.

(** The user map finds, for an id, the last user of the list with that
    id. *)
Lemma build_userMap_get (users : list User) (id : bytes) :
  map_get id (build_userMap (Some users))
  = find (fun u => bytes_eqb id (User_ID u)) (rev users).
Proof.
  unfold build_userMap. rewrite <- fold_left_rev_right.
  induction (rev users) as [|u l IH]; cbn [fold_right find]; [reflexivity|].
  rewrite map_get_set. now destruct (bytes_eqb id (User_ID u)).
Qed.

Section TransformProperties.

Variable time : Type.
Variable Format_RFC3339 : time -> bytes.

Lemma transform_tweets_nth (userMap : gomap User) (clock : nat -> time)
  (tweets : list (Tweet time)) (k0 k : nat) (tweet : Tweet time) :
  nth_error tweets k = Some tweet ->
  nth_error (transform_tweets Format_RFC3339 userMap clock k0 tweets) k
  = Some (TransformTweet Format_RFC3339 tweet
            match map_get (Tweet_AuthorID tweet) userMap with
            | Some u => u
            | None => unknown_user
            end (clock (k0 + k))).
Proof.
  revert k0 k. induction tweets as [|t ts IH]; intros k0 [|k] H;
    simpl in *; try discriminate.
  - injection H as ->. now rewrite Nat.add_0_r.
  - rewrite (IH (S k0) k H). do 3 f_equal. lia.
Qed.

Lemma transform_tweets_ids (userMap : gomap User) (clock : nat -> time)
  (tweets : list (Tweet time)) (k0 : nat) :
  map DP_ID (transform_tweets Format_RFC3339 userMap clock k0 tweets)
  = map Tweet_ID tweets
  /\ Forall status_payload
       (transform_tweets Format_RFC3339 userMap clock k0 tweets).
Proof.
  revert k0. induction tweets as [|t ts IH]; intros k0; simpl.
  - split; [reflexivity | constructor].
  - destruct (IH (S k0)) as [H1 H2]. split; [now f_equal|].
    constructor; [|exact H2]. repeat split.
Qed.

Lemma transform_tweets_timestamps (userMap : gomap User)
  (clock : nat -> time) (tweets : list (Tweet time)) (k0 : nat) :
  map DP_Timestamp (transform_tweets Format_RFC3339 userMap clock k0 tweets)
  = map (fun k => Format_RFC3339 (clock k)) (seq k0 (length tweets)).
Proof.
  revert k0. induction tweets as [|t ts IH]; intros k0; simpl.
  - reflexivity.
  - now rewrite (IH (S k0)).
Qed.

Lemma search_tweets_ids (userMap : gomap User) (clock : nat -> time)
  (tweets : list (Tweet time)) (k0 : nat) :
  map DP_ID (search_tweets Format_RFC3339 userMap clock k0 tweets)
  = map Tweet_ID tweets
  /\ Forall status_payload
       (search_tweets Format_RFC3339 userMap clock k0 tweets).
Proof.
  revert k0. induction tweets as [|t ts IH]; intros k0; simpl.
  - split; [reflexivity | constructor].
  - destruct (IH (S k0)) as [H1 H2]. split; [now f_equal|].
    constructor; [|exact H2]. repeat split.
Qed.

Lemma search_tweets_timestamps (userMap : gomap User)
  (clock : nat -> time) (tweets : list (Tweet time)) (k0 : nat) :
  map DP_Timestamp (search_tweets Format_RFC3339 userMap clock k0 tweets)
  = map (fun k => Format_RFC3339 (clock k)) (seq k0 (length tweets)).
Proof.
  revert k0. induction tweets as [|t ts IH]; intros k0; simpl.
  - reflexivity.
  - now rewrite (IH (S k0)).
Qed.

(** The two loops differ in nothing but the readings of the clock. *)
Lemma search_tweets_without_timestamp (userMap : gomap User)
  (clock sclock : nat -> time) (tweets : list (Tweet time)) (k0 s0 : nat) :
  map without_timestamp
    (search_tweets Format_RFC3339 userMap sclock s0 tweets)
  = map without_timestamp
      (transform_tweets Format_RFC3339 userMap clock k0 tweets).
Proof.
  revert k0 s0. induction tweets as [|t ts IH]; intros k0 s0; simpl.
  - reflexivity.
  - now rewrite (IH (S k0) (S s0)).
Qed.

(** X14. [TransformTimeline] and [TransformSearch] each give one payload
    for each tweet of their response, in the order of the response and
    with the id of the tweet; each payload has the type [status_update],
    the status 200 and the endpoint [/v2/statuses/<id>], and its timestamp
    is the reading of the clock in its own call.  The two functions are
    two runs, each with its own readings of the clock: for a timeline
    response and a search response with the same tweets and the same
    includes, the payloads agree in every field but the timestamp. *)
Theorem transform_one_payload_per_tweet (resp : TweetsResponse time)
  (sresp : SearchResponse time) (endpoint query : bytes)
  (clock sclock : nat -> time) :
  let timeline := TransformTimeline Format_RFC3339 resp endpoint clock in
  let search := TransformSearch Format_RFC3339 sresp query sclock in
  (map DP_ID (DR_Data timeline) = map Tweet_ID (TR_Data resp)
   /\ length (DR_Data timeline) = length (TR_Data resp)
   /\ Forall status_payload (DR_Data timeline)
   /\ map DP_Timestamp (DR_Data timeline)
      = map (fun k => Format_RFC3339 (clock k))
          (seq 0 (length (TR_Data resp))))
  /\ (map DP_ID (DR_Data search) = map Tweet_ID (SR_Data sresp)
      /\ length (DR_Data search) = length (SR_Data sresp)
      /\ Forall status_payload (DR_Data search)
      /\ map DP_Timestamp (DR_Data search)
         = map (fun k => Format_RFC3339 (sclock k))
             (seq 0 (length (SR_Data sresp))))
  /\ (SR_Data sresp = TR_Data resp ->
      SR_Includes sresp = TR_Includes resp ->
      map without_timestamp (DR_Data search)
      = map without_timestamp (DR_Data timeline)).
Proof.
  cbv zeta. unfold TransformTimeline, TransformSearch. cbn [DR_Data].
  split; [|split].
  - destruct (transform_tweets_ids (build_userMap (TR_Includes resp)) clock
                (TR_Data resp) 0) as [H1 H2].
    split; [exact H1|]. split; [|split; [exact H2|]].
    + rewrite <- (length_map DP_ID), H1. apply length_map.
    + apply transform_tweets_timestamps.
  - set (userMap := match SR_Includes sresp with
                    | Some users => _
                    | None => _
                    end).
    destruct (search_tweets_ids userMap sclock (SR_Data sresp) 0)
      as [H1 H2].
    split; [exact H1|]. split; [|split; [exact H2|]].
    + rewrite <- (length_map DP_ID), H1. apply length_map.
    + apply search_tweets_timestamps.
  - intros Hd Hi. rewrite Hd, Hi. unfold build_userMap.
    apply search_tweets_without_timestamp.
Qed.

(** X15. The author of a payload: the payload at index [k] is the
    transform of the tweet at index [k] with the last user of the includes
    that has the author id of the tweet, or with the unknown user when the
    includes have none (or are missing), at the [k]-th reading of the
    clock. *)
Theorem transform_author_last_match (resp : TweetsResponse time)
  (endpoint : bytes) (clock : nat -> time) (k : nat) (tweet : Tweet time) :
  nth_error (TR_Data resp) k = Some tweet ->
  nth_error (DR_Data (TransformTimeline Format_RFC3339 resp endpoint clock)) k
  = Some (TransformTweet Format_RFC3339 tweet
            (author_of (TR_Includes resp) tweet) (clock k)).
Proof.
  intros H. unfold TransformTimeline. cbn [DR_Data].
  rewrite (transform_tweets_nth _ clock (TR_Data resp) 0 k tweet H).
  cbn [Nat.add]. do 2 f_equal. unfold author_of.
  destruct (TR_Includes resp) as [users|]; [|reflexivity].
  now rewrite build_userMap_get.
Qed.

(** The pagination data: the result has a meta exactly when the response
    has one; its cursor is the next token of the response, and it says
    there is more exactly when that token is not empty. *)
Lemma transform_meta_has_more (resp : TweetsResponse time)
  (endpoint : bytes) (clock : nat -> time) :
  let r := TransformTimeline Format_RFC3339 resp endpoint clock in
  (DR_Meta r = None <-> TR_Meta resp = None)
  /\ (forall m, DR_Meta r = Some m ->
        (exists meta, TR_Meta resp = Some meta
                      /\ MI_NextCursor m = NextToken meta
                      /\ MI_ResultCount m = ResultCount meta)
        /\ (MI_HasMore m = true <-> MI_NextCursor m <> [])).
Proof.
  cbv zeta. unfold TransformTimeline, transform_meta. cbn [DR_Meta].
  destruct (TR_Meta resp) as [meta|].
  - split; [split; discriminate|]. intros m [= <-]. cbn.
    split; [eauto|]. rewrite negb_true_iff. split.
    + intros H E. rewrite E in H. discriminate H.
    + intros H. now apply bytes_eqb_neq.
  - split; [tauto|]. intros m H. discriminate H.
Qed.

End TransformProperties.

(** * From the response to the screen *)

Section Screen.

Variable error : Type.
Variable error_text : error -> bytes.
Variable ToJSON : DisguisedPayload -> bytes * option error.

Lemma shown_item_in_list (a : App error) (l : list DisguisedPayload) :
  shown_list a = Some l -> l <> [] -> (0 <= currentIndex a < len l)%Z ->
  exists item, shown_item a = Ok (Some item)
               /\ nth_error l (Z.to_nat (currentIndex a)) = Some item.
Proof.
  unfold shown_list, shown_item. intros Hs Hne Hi. destruct (mode a).
  - destruct (timeline a) as [r|]; [|discriminate]. injection Hs as <-.
    now apply current_item_in_range.
  - discriminate.
  - destruct (searchResults a) as [r|]; [|discriminate]. injection Hs as <-.
    now apply current_item_in_range.
Qed.

(** [updateContent] puts the current item on the screen. *)
Lemma updateContent_renders (a : App error) (l : list DisguisedPayload) :
  shown_list a = Some l -> l <> [] -> index_in_list a ->
  exists a', updateContent error_text ToJSON a = Ok a'
    /\ renders_current error_text ToJSON l a'
    /\ currentIndex a' = currentIndex a
    /\ shown_list a' = Some l
    /\ (go_values a -> go_values a')
    /\ index_in_list a'.
Proof.
  intros Hs Hne Hin. pose proof Hin as [H0 Hl]. specialize (Hl l Hs Hne).
  destruct (shown_item_in_list a l Hs Hne) as (item & Hsh & Hn); [lia|].
  destruct (updateContent_Ok error error_text ToJSON a (Some item) Hsh)
    as (out & Ho & Hu).
  exists (set_jsonContent out a). split; [exact Hu|].
  split; [exists item; split; [exact Hn | exact Ho]|].
  split; [reflexivity|]. split; [exact Hs|]. split; [|exact Hin].
  intros Hg. exact Hg.
Qed.

(** One key press, with all that it keeps. *)
Lemma nav_step_renders (k : nav) (a : App error)
  (l : list DisguisedPayload) :
  go_values a -> index_in_list a -> shown_list a = Some l -> l <> [] ->
  exists a', Update_nav error_text ToJSON k a = Ok a'
    /\ renders_current error_text ToJSON l a'
    /\ currentIndex a'
       = match k with
         | Next => Z.min (currentIndex a + 1) (len l - 1)
         | Prev => Z.max (currentIndex a - 1) 0
         end
    /\ go_values a' /\ index_in_list a' /\ shown_list a' = Some l.
Proof.
  intros Hg Hin Hs Hne. pose proof Hin as [H0 Hl]. specialize (Hl l Hs Hne).
  destruct (moved_in_list error a Hg Hin)
    as ((Hg1 & Hi1 & Hs1) & (Hg2 & Hi2 & Hs2)).
  unfold Update_nav. destruct k.
  - rewrite Hs in Hs1.
    destruct (updateContent_renders (nextItem a) l Hs1 Hne Hi1)
      as (a' & Hu & Hr & Hc & Hs' & Hg' & Hi').
    exists a'. split; [exact Hu|]. split; [exact Hr|].
    split; [|split; [now apply Hg' | split; [exact Hi' | exact Hs']]].
    rewrite Hc, (nextItem_index error a Hg), (shown_list_maxIndex error a l Hs).
    destruct (currentIndex a <? len l - 1)%Z eqn:E.
    + apply Z.ltb_lt in E. cbn [currentIndex set_currentIndex]. lia.
    + apply Z.ltb_ge in E. lia.
  - rewrite Hs in Hs2.
    destruct (updateContent_renders (prevItem a) l Hs2 Hne Hi2)
      as (a' & Hu & Hr & Hc & Hs' & Hg' & Hi').
    exists a'. split; [exact Hu|]. split; [exact Hr|].
    split; [|split; [now apply Hg' | split; [exact Hi' | exact Hs']]].
    rewrite Hc, (prevItem_index error a Hg).
    destruct (0 <? currentIndex a)%Z eqn:E.
    + apply Z.ltb_lt in E. cbn [currentIndex set_currentIndex]. lia.
    + apply Z.ltb_ge in E. lia.
Qed.

(** X16. The screen follows the index: after a next or previous key press
    on a list with an item, [jsonContent] is the highlighted JSON text of
    the item at the new [currentIndex], and that index is one step from
    the old one, or the same at either end of the list. *)
Theorem navigation_renders_current_item (k : nav) (a : App error)
  (l : list DisguisedPayload) :
  go_values a -> index_in_list a -> shown_list a = Some l -> l <> [] ->
  exists a', Update_nav error_text ToJSON k a = Ok a'
    /\ renders_current error_text ToJSON l a'
    /\ currentIndex a'
       = match k with
         | Next => Z.min (currentIndex a + 1) (len l - 1)
         | Prev => Z.max (currentIndex a - 1) 0
         end.
Proof.
  intros Hg Hin Hs Hne.
  destruct (nav_step_renders k a l Hg Hin Hs Hne)
    as (a' & Hu & Hr & Hi & _).
  eauto.
Qed.

End Screen.

Section EndToEnd.

Variable time : Type.
Variable Format_RFC3339 : time -> bytes.
Variable error : Type.
Variable error_text : error -> bytes.
Variable ToJSON : DisguisedPayload -> bytes * option error.

(** A run of next key presses, with what is on the screen at its end. *)
Lemma next_presses_render (l : list DisguisedPayload) (k : nat) (a : App error) :
  go_values a -> index_in_list a -> shown_list a = Some l -> l <> [] ->
  renders_current error_text ToJSON l a ->
  exists a', Update_navs error_text ToJSON (repeat Next k) a = Ok a'
    /\ renders_current error_text ToJSON l a'
    /\ currentIndex a' = Z.min (currentIndex a + Z.of_nat k) (len l - 1).
Proof.
  revert a. induction k as [|k IH]; intros a Hg Hin Hs Hne Hr.
  - pose proof Hin as [H0 Hl]. specialize (Hl l Hs Hne).
    exists a. split; [reflexivity|]. split; [exact Hr | lia].
  - destruct (nav_step_renders error error_text ToJSON Next a l Hg Hin Hs Hne)
      as (a1 & Hu & Hr1 & Hc1 & Hg1 & Hi1 & Hs1).
    cbn [repeat Update_navs]. rewrite Hu. cbn [bind].
    destruct (IH a1 Hg1 Hi1 Hs1 Hne Hr1) as (a' & Hn & Hr' & Hc').
    exists a'. split; [exact Hn|]. split; [exact Hr'|].
    pose proof Hin as [H0 Hl]. specialize (Hl l Hs Hne). lia.
Qed.

(** X17. From the response to the screen: when the timeline made from a
    response by [TransformTimeline] arrives at start-up and the next key is
    pressed [k] times, the screen shows the highlighted JSON text of the
    payload of the tweet at index [min k (n - 1)] of the response, [n]
    being the number of its tweets, with the author found for that
    tweet. *)
Theorem next_presses_show_tweet (resp : TweetsResponse time)
  (endpoint : bytes) (clock : nat -> time) (k j : nat) (tweet : Tweet time) :
  (len (TR_Data resp) < 2 ^ 63)%Z ->
  j = Nat.min k (length (TR_Data resp) - 1) ->
  nth_error (TR_Data resp) j = Some tweet ->
  exists a1 a2,
    Update_timelineMsg error_text ToJSON
      (TransformTimeline Format_RFC3339 resp endpoint clock) NewApp = Ok a1
    /\ Update_navs error_text ToJSON (repeat Next k) a1 = Ok a2
    /\ currentIndex a2 = Z.of_nat j
    /\ highlightJSON
         (content_of error_text ToJSON
            (Some (TransformTweet Format_RFC3339 tweet
                     (author_of (TR_Includes resp) tweet) (clock j))))
       = Ok (jsonContent a2).
Proof.
  intros Hfit Hj Hnth.
  set (msg := TransformTimeline Format_RFC3339 resp endpoint clock).
  set (l := DR_Data msg).
  assert (Hlen : length l = length (TR_Data resp)).
  { unfold l, msg, TransformTimeline. cbn [DR_Data].
    destruct (transform_tweets_ids time Format_RFC3339
                (build_userMap (TR_Includes resp)) clock (TR_Data resp) 0)
      as [H1 _].
    rewrite <- (length_map DP_ID), H1. apply length_map. }
  assert (Hpos : (0 < length (TR_Data resp))%nat).
  { assert (j < length (TR_Data resp))%nat
      by (apply nth_error_Some; congruence). lia. }
  assert (Hne : l <> []) by (intros E; rewrite E in Hlen; simpl in Hlen; lia).
  (* the timeline arrives *)
  set (b := mkApp viewTimeline false (err (@NewApp error)) (Some msg)
              (profile (@NewApp error)) (searchResults (@NewApp error))
              (currentIndex (@NewApp error)) (nextToken (@NewApp error))
              (jsonContent (@NewApp error)) (status_ok msg)).
  assert (Hsb : shown_list b = Some l) by reflexivity.
  assert (Hib : index_in_list b).
  { split; [simpl; lia|]. intros l' Hl' _.
    change (shown_list b) with (Some l) in Hl'. injection Hl' as <-.
    change (currentIndex b) with 0%Z. unfold len. rewrite Hlen. lia. }
  assert (Hgb : go_values b).
  { split; [simpl; lia|]. intros r [Hr | Hr]; [|discriminate Hr].
    change (timeline b) with (Some msg) in Hr. injection Hr as <-.
    fold l. unfold len in *. rewrite Hlen. exact Hfit. }
  destruct (updateContent_renders error error_text ToJSON b l Hsb Hne Hib)
    as (a1 & Hu1 & Hr1 & Hc1 & Hs1 & Hg1 & Hi1).
  (* the key presses *)
  destruct (next_presses_render l k a1 (Hg1 Hgb) Hi1 Hs1 Hne Hr1)
    as (a2 & Hu2 & (item & Hitem & Hout) & Hc2).
  exists a1, a2. split; [exact Hu1|]. split; [exact Hu2|].
  assert (Hcur : currentIndex a2 = Z.of_nat j).
  { rewrite Hc2, Hc1. change (currentIndex b) with 0%Z.
    unfold len. rewrite Hlen. lia. }
  split; [exact Hcur|].
  (* the item on the screen is the payload of that tweet *)
  rewrite Hcur, Nat2Z.id in Hitem. unfold l, msg, TransformTimeline in Hitem.
  cbn [DR_Data] in Hitem.
  rewrite (transform_tweets_nth time Format_RFC3339 _ clock (TR_Data resp)
             0 j tweet Hnth) in Hitem.
  injection Hitem as <-. rewrite <- Hout. cbn [Nat.add].
  do 4 f_equal. unfold author_of.
  destruct (TR_Includes resp) as [users|]; [|reflexivity].
  now rewrite build_userMap_get.
Qed.

End EndToEnd.

(** ** The last theorems at sample values *)

Lemma transform_author_last_match_witness :
  nth_error (DR_Data (TransformTimeline sample_format sample_tweets []
                        sample_clock)) 0
  = Some (TransformTweet sample_format (sample_tweet "t1" "u1")
            (author_of (TR_Includes sample_tweets) (sample_tweet "t1" "u1"))
            (sample_clock 0))
  /\ author_of (TR_Includes sample_tweets) (sample_tweet "t1" "u1")
     = sample_user "u1" "second"
  /\ author_of (TR_Includes sample_tweets) (sample_tweet "t2" "nobody")
     = unknown_user.
Proof.
  split; [|split; reflexivity].
  exact (transform_author_last_match unit sample_format sample_tweets []
           sample_clock 0 (sample_tweet "t1" "u1") eq_refl).
Defined.

Lemma navigation_renders_current_item_witness :
  exists a', Update_nav sample_error_text sample_ToJSON Next sample_app = Ok a'
    /\ renders_current sample_error_text sample_ToJSON
         (DR_Data (sample_response ["1"; "2"; "3"]%string)) a'
    /\ currentIndex a' = 2%Z.
Proof.
  exact (navigation_renders_current_item unit sample_error_text sample_ToJSON
           Next sample_app (DR_Data (sample_response ["1"; "2"; "3"]%string))
           sample_app_go_values sample_app_index_in_list eq_refl
           ltac:(discriminate)).
Defined.

Lemma next_presses_show_tweet_witness :
  exists a1 a2,
    Update_timelineMsg sample_error_text sample_ToJSON
      (TransformTimeline sample_format sample_tweets [] sample_clock) NewApp
    = Ok a1
    /\ Update_navs sample_error_text sample_ToJSON (repeat Next 5) a1 = Ok a2
    /\ currentIndex a2 = 1%Z
    /\ highlightJSON
         (content_of sample_error_text sample_ToJSON
            (Some (TransformTweet sample_format (sample_tweet "t2" "nobody")
                     (author_of (TR_Includes sample_tweets)
                        (sample_tweet "t2" "nobody"))
                     (sample_clock 1))))
       = Ok (jsonContent a2).
Proof.
  apply (next_presses_show_tweet unit sample_format unit sample_error_text
           sample_ToJSON sample_tweets [] sample_clock 5 1
           (sample_tweet "t2" "nobody")).
  - unfold len. simpl. lia.
  - reflexivity.
  - reflexivity.
Defined.
